(** * EventDispatcher: a priority-ordered event dispatch registry

    Shallow embedding of [EventDispatcher<EventEnum, LockType>] from
    [src/main.cpp] and verification of its ordering, identity, removal,
    framing and locking properties.

    - [std::map<EventEnum, std::vector<...>>] is a [gmap] from categories to
      lists of handlers;
    - [HandlerId] is [size_t]: an [N] with the 64-bit wrap-around of
      [next_id_++] written out;
    - [int priority] is a [Z]; priorities are only compared, never computed
      with, so every result below holds in particular for 32-bit values;
    - a handler body is opaque user code: [dispatch] is modelled by the
      sequence of [call] invocations it performs, each recording the
      handler entered and the tuple it was handed. *)

From stdpp Require Import gmap strings list fin_maps sorting.

Local Open Scope Z_scope.

(** ** Argument types and values

    [Args...] ranges over C++ types; the drivers of the repository
    instantiate it with [int] and [std::string]. *)

Inductive ctype : Type :=
  | TInt
  | TString.

Inductive value : Type :=
  | VInt (n : Z)
  | VString (s : string).

Definition type_of (v : value) : ctype :=
  match v with
  | VInt _ => TInt
  | VString _ => TString
  end.

(** [std::tuple<std::decay_t<Args>...>] built by [dispatch]. *)
Definition Tuple : Type := list value.

Definition types_of (tup : Tuple) : list ctype := map type_of tup.

#[global] Instance ctype_eq_dec : EqDecision ctype.
Proof. solve_decision. Defined.

(** ** Handler ids *)

Definition HandlerId : Type := N.

(** Width of [size_t] on the LP64 targets the program is built for. *)
Definition SIZE_BITS : N := 64.

Definition SIZE_MOD : N := (2 ^ SIZE_BITS)%N.

(** ** The two standard algorithms the registry relies on *)

Section Algorithms.
Context {A : Type}.

(** [std::upper_bound(first, last, value, comp)]: the halving loop of the
    standard library.  [first] and [count] are the loop variables; the
    loop body runs at most [count] times, so [count] itself is enough
    fuel.  The element at [first + step] always exists, since
    [first + count] never exceeds the length of [vec]. *)
Fixpoint upper_bound_loop (comp : Z -> A -> bool) (val : Z) (vec : list A)
    (fuel first count : nat) : nat :=
  match fuel with
  | O => first
  | S fuel' =>
      if (count =? 0)%nat then first
      else
        let step := (count / 2)%nat in
        match vec !! (first + step)%nat with
        | Some mid =>
            if comp val mid
            then upper_bound_loop comp val vec fuel' first step
            else upper_bound_loop comp val vec fuel'
                   (first + step + 1)%nat (count - step - 1)%nat
        | None => first
        end
  end.

Definition upper_bound (comp : Z -> A -> bool) (val : Z) (vec : list A) : nat :=
  upper_bound_loop comp val vec (length vec) 0%nat (length vec).

(** [vec.insert(it, x)] with [it = vec.begin() + i]. *)
Definition vec_insert (i : nat) (x : A) (vec : list A) : list A :=
  take i vec ++ x :: drop i vec.

(** [vec.erase(std::remove_if(vec.begin(), vec.end(), pred), vec.end())]:
    the erase-remove idiom keeps, in their order, the elements on which
    [pred] is false. *)
Definition erase_remove_if (pred : A -> bool) (vec : list A) : list A :=
  List.filter (fun x => negb (pred x)) vec.
End Algorithms.

(** ** The dispatcher *)

Section Dispatcher.
Context {EventEnum : Type} `{Countable EventEnum}.
(** The type of the callables handed to [registerHandler]. *)
Context {Callable : Type}.

(** [HandlerBase] together with the fields of its only derived class
    [Handler<Args...>]: the template arguments and the stored function. *)
Record HandlerBase : Type := mkHandler {
  id : HandlerId;
  priority : Z;
  Args : list ctype;
  func : Callable;
}.

(** One entry of the observable behaviour of [dispatch]: [func] of
    [callee] was run on [passed]. *)
Record Invocation : Type := mkInvocation {
  callee : HandlerBase;
  passed : Tuple;
}.

(** [Handler<Args...>::call(void* args)]: the pointer is cast back to
    [std::tuple<Args...>*] without any check and [func] is applied to its
    components. *)
Definition call (h : HandlerBase) (args : Tuple) : Invocation :=
  {| callee := h; passed := args |}.

Record EventDispatcher : Type := mkDispatcher {
  handlers_ : gmap EventEnum (list HandlerBase);
  next_id_ : HandlerId;
}.

(** The default-constructed dispatcher: [handlers_] empty, [next_id_{1}]. *)
Definition fresh : EventDispatcher :=
  {| handlers_ := ∅; next_id_ := 1%N |}.

(** The comparison lambda of [registerHandler]. *)
Definition prio_gt (p : Z) (h : HandlerBase) : bool := p >? priority h.

Definition registerHandler (args : list ctype) (event : EventEnum)
    (callable : Callable) (prio : Z) (d : EventDispatcher)
    : HandlerId * EventDispatcher :=
  let i := next_id_ d in
  let next := ((next_id_ d + 1) mod SIZE_MOD)%N in
  let handler := {| id := i; priority := prio; Args := args; func := callable |} in
  let vec := default [] (handlers_ d !! event) in
  let it := upper_bound prio_gt prio vec in
  (i, {| handlers_ := <[event := vec_insert it handler vec]> (handlers_ d);
         next_id_ := next |}).

Definition unregisterHandler (event : EventEnum) (i : HandlerId)
    (d : EventDispatcher) : EventDispatcher :=
  match handlers_ d !! event with
  | Some vec =>
      {| handlers_ :=
           <[event := erase_remove_if (fun h => (id h =? i)%N) vec]> (handlers_ d);
         next_id_ := next_id_ d |}
  | None => d
  end.

(** [dispatch] is a [const] member: it returns the dispatcher it was given
    together with the invocations it made, in order. *)
Definition dispatch (event : EventEnum) (tup : Tuple) (d : EventDispatcher)
    : EventDispatcher * list Invocation :=
  match handlers_ d !! event with
  | None => (d, [])
  | Some vec => (d, map (fun handler => call handler tup) vec)
  end.

End Dispatcher.

Arguments HandlerBase : clear implicits.
Arguments Invocation : clear implicits.
Arguments EventDispatcher EventEnum {_ _} Callable.

(** ** Sequences of operations on one dispatcher *)

Section Operations.
Context {EventEnum : Type} `{Countable EventEnum} {Callable : Type}.

Abbreviation Handler := (HandlerBase Callable).
Abbreviation Dispatcher := (EventDispatcher EventEnum Callable).

(** The handler list of a category; a category without an entry in
    [handlers_] has no handlers. *)
Definition handlers_of (d : Dispatcher) (c : EventEnum) : list Handler :=
  default [] (handlers_ d !! c).

Inductive Op : Type :=
  | OpRegister (args : list ctype) (event : EventEnum) (callable : Callable) (prio : Z)
  | OpUnregister (event : EventEnum) (i : HandlerId)
  | OpDispatch (event : EventEnum) (tup : Tuple).

(** What the caller of an operation gets back or observes. *)
Inductive Outcome : Type :=
  | Registered (i : HandlerId)
  | Unregistered
  | Dispatched (calls : list (Invocation Callable)).

Definition step (op : Op) (d : Dispatcher) : Outcome * Dispatcher :=
  match op with
  | OpRegister args event callable prio =>
      let r := registerHandler args event callable prio d in (Registered r.1, r.2)
  | OpUnregister event i => (Unregistered, unregisterHandler event i d)
  | OpDispatch event tup =>
      let r := dispatch event tup d in (Dispatched r.2, r.1)
  end.

Fixpoint run (ops : list Op) (d : Dispatcher) : list Outcome * Dispatcher :=
  match ops with
  | [] => ([], d)
  | op :: ops' =>
      let r := step op d in
      let rs := run ops' r.2 in
      (r.1 :: rs.1, rs.2)
  end.

(** The ids handed out by the [registerHandler] calls of a run. *)
Definition issued_ids (outs : list Outcome) : list HandlerId :=
  omap (fun o => match o with Registered i => Some i | _ => None end) outs.

Definition registrations (ops : list Op) : nat :=
  length (List.filter (fun op => match op with OpRegister _ _ _ _ => true | _ => false end) ops).

(** One [registerHandler<Args...>(event, callable, priority)] call. *)
Record Registration : Type := mkRegistration {
  reg_args : list ctype;
  reg_event : EventEnum;
  reg_callable : Callable;
  reg_priority : Z;
}.

Fixpoint register_all (rs : list Registration) (d : Dispatcher)
    : list HandlerId * Dispatcher :=
  match rs with
  | [] => ([], d)
  | r :: rs' =>
      let s := registerHandler (reg_args r) (reg_event r) (reg_callable r) (reg_priority r) d in
      let t := register_all rs' s.2 in
      (s.1 :: t.1, t.2)
  end.

End Operations.

Arguments Op : clear implicits.
Arguments Outcome : clear implicits.
Arguments Registration : clear implicits.

(** ** Running the handler bodies

    What a callable does is a function of its arguments and of the world
    outside the dispatcher: it returns, having changed that world, or it
    throws.  A callable has no access to the dispatcher it is stored in. *)

Inductive Completion (World : Type) : Type :=
  | Returns (w : World)
  | Throws (w : World).

Arguments Returns {World} w.
Arguments Throws {World} w.

Section Bodies.
Context {EventEnum : Type} `{Countable EventEnum} {World : Type}.

(** [std::function<void(Args...)>] *)
Definition Body : Type := list value -> World -> Completion World.

(** [std::index_sequence_for<Args...>]: the indices [0 .. sizeof...(Args) - 1]. *)
Definition index_sequence_for (args : list ctype) : list nat := seq 0 (length args).

(** [Handler::call_impl]: [func(std::get<I>(tup)...)].  A tuple of the
    handler's own type has a component at each index.  This describes the
    call on such a tuple only; what the code reads from a tuple of another
    type is undefined, see [perform_cast] below. *)
Definition call_impl (f : Body) (tup : Tuple) (indices : list nat) (w : World)
    : Completion World :=
  f (omap (fun i => tup !! i) indices) w.

(** [Handler::call], carried out. *)
Definition enter (inv : Invocation Body) (w : World) : Completion World :=
  call_impl (func (callee inv)) (passed inv) (index_sequence_for (Args (callee inv))) w.

(** The loop of [dispatch], carried out: the calls are entered one after
    the other; an exception leaves the loop, since nothing catches it.
    The result lists the calls entered. *)
Fixpoint perform (calls : list (Invocation Body)) (w : World)
    : list (Invocation Body) * Completion World :=
  match calls with
  | [] => ([], Returns w)
  | inv :: rest =>
      match enter inv w with
      | Returns w' => let r := perform rest w' in (inv :: r.1, r.2)
      | Throws w' => ([inv], Throws w')
      end
  end.

Definition dispatch_run (event : EventEnum) (tup : Tuple)
    (d : EventDispatcher EventEnum Body) (w : World)
    : list (Invocation Body) * Completion World :=
  perform (dispatch event tup d).2 w.
End Bodies.

Arguments Body : clear implicits.

(** ** The unchecked cast of [Handler::call]

    [call] casts the [void*] it is handed back to [std::tuple<Args...>*]
    without looking at what it points to.  When the tuple that [dispatch]
    built has the handler's types, the cast gives that tuple back.  When it
    has not, the handler reads the memory of a tuple of another type: the
    behaviour of the program is undefined from there on, and nothing more is
    said of it.

    What the caller of [dispatch] may then observe: a pass that completes,
    by returning or by an exception of a body; the mismatch condition the
    specification asks for; or undefined behaviour. *)

Inductive Observed (World : Type) : Type :=
  | Completes (r : Completion World)
  | SignatureMismatch
  | UndefinedBehaviour.

Arguments Completes {World} r.
Arguments SignatureMismatch {World}.
Arguments UndefinedBehaviour {World}.

Section Cast.
Context {EventEnum : Type} `{Countable EventEnum} {World : Type}.

(** The loop of [dispatch] with the cast of [Handler::call] taken into
    account.  Every call is entered; no types are compared before.  The
    result lists the calls entered. *)
Fixpoint perform_cast (calls : list (Invocation (Body World))) (w : World)
    : list (Invocation (Body World)) * Observed World :=
  match calls with
  | [] => ([], Completes (Returns w))
  | inv :: rest =>
      if decide (Args (callee inv) = types_of (passed inv))
      then
        match enter inv w with
        | Returns w' => let r := perform_cast rest w' in (inv :: r.1, r.2)
        | Throws w' => ([inv], Completes (Throws w'))
        end
      else ([inv], UndefinedBehaviour)
  end.

Definition dispatch_cast (event : EventEnum) (tup : Tuple)
    (d : EventDispatcher EventEnum (Body World)) (w : World)
    : list (Invocation (Body World)) * Observed World :=
  perform_cast (dispatch event tup d).2 w.
End Cast.

(** ** The locking discipline

    Every member function takes [mutex_] in its first statement and holds
    it until it returns: [registerHandler] and [unregisterHandler] through
    a [std::unique_lock], [dispatch] through a [std::shared_lock].  Calls
    made from several threads are modelled as an interleaving of two kinds
    of steps, a call entering (its lock is granted) and a call returning
    (its effect on the dispatcher takes place and its lock is given up). *)

Inductive LockKind : Type :=
  | UniqueLock
  | SharedLock.

(** [std::shared_mutex]: held by one exclusive owner, or by any number of
    shared owners, or by nobody.  The implementation-defined ceiling on
    the number of shared owners and the order in which waiting callers are
    served are not part of the model. *)
Record SharedMutex : Type := mkSharedMutex {
  exclusive_owner : bool;
  shared_owners : nat;
}.

Definition unlocked : SharedMutex :=
  {| exclusive_owner := false; shared_owners := 0 |}.

(** [lock()] and [lock_shared()]: [None] when the caller has to wait. *)
Definition acquire (k : LockKind) (m : SharedMutex) : option SharedMutex :=
  match k with
  | UniqueLock =>
      if exclusive_owner m || negb (shared_owners m =? 0)%nat then None
      else Some {| exclusive_owner := true; shared_owners := 0 |}
  | SharedLock =>
      if exclusive_owner m then None
      else Some {| exclusive_owner := false; shared_owners := S (shared_owners m) |}
  end.

(** [unlock()] and [unlock_shared()], run by the lock's destructor. *)
Definition release (k : LockKind) (m : SharedMutex) : SharedMutex :=
  match k with
  | UniqueLock => {| exclusive_owner := false; shared_owners := shared_owners m |}
  | SharedLock =>
      {| exclusive_owner := exclusive_owner m; shared_owners := pred (shared_owners m) |}
  end.

Section SharedDispatcher.
Context {EventEnum : Type} `{Countable EventEnum} {Callable : Type}.

Abbreviation Dispatcher := (EventDispatcher EventEnum Callable).
Abbreviation Call := (Op EventEnum Callable).

(** The lock each member function declares. *)
Definition lock_taken (op : Call) : LockKind :=
  match op with
  | OpRegister _ _ _ _ => UniqueLock
  | OpUnregister _ _ => UniqueLock
  | OpDispatch _ _ => SharedLock
  end.

(** A dispatcher shared by several threads: the state of [mutex_], the
    calls that hold it and have not returned yet, one per calling thread,
    and the data the mutex guards. *)
Record Shared : Type := mkShared {
  mutex_ : SharedMutex;
  in_progress : list Call;
  guarded : Dispatcher;
}.

Definition shared_fresh : Shared :=
  {| mutex_ := unlocked; in_progress := []; guarded := fresh |}.

Inductive shared_step : Shared -> Shared -> Prop :=
  | call_enters (op : Call) (s : Shared) (m' : SharedMutex) :
      acquire (lock_taken op) (mutex_ s) = Some m' ->
      shared_step s
        {| mutex_ := m'; in_progress := op :: in_progress s; guarded := guarded s |}
  | call_returns (op : Call) (s : Shared) (before after : list Call) :
      in_progress s = before ++ op :: after ->
      shared_step s
        {| mutex_ := release (lock_taken op) (mutex_ s);
           in_progress := before ++ after;
           guarded := (step op (guarded s)).2 |}.

Definition shared_reachable (s : Shared) : Prop := rtc shared_step shared_fresh s.
End SharedDispatcher.

Arguments Shared EventEnum {_ _} Callable.

(** ** The categories of the repository's drivers *)

Inductive EventType : Type :=
  | EventA
  | EventB.

#[global] Instance EventType_eq_dec : EqDecision EventType.
Proof. solve_decision. Defined.

#[global] Instance EventType_countable : Countable EventType.
Proof.
  refine (inj_countable' (fun e => match e with EventA => false | EventB => true end)
            (fun b : bool => if b then EventB else EventA) _).
  by intros [].
Defined.

(** ** The drivers' scenarios

    The dispatcher of [unitTests()]: three handlers on [EventB], callables
    named by what they print. *)

Definition unit_tests : EventDispatcher EventType string :=
  (registerHandler [TString] EventB "Handler 3" 1
    (registerHandler [TString] EventB "Handler 2" 10
      (registerHandler [TString] EventB "Handler 1" 5 fresh).2).2).2.

(** A run that mixes categories, an unregistration and a dispatch. *)
Definition mixed_run : list (Op EventType string) :=
  [ OpRegister [TInt] EventA "plus one" 5;
    OpRegister [TString] EventB "Handler 2" 10;
    OpUnregister EventA 1%N;
    OpRegister [TInt] EventA "minus three" 7;
    OpDispatch EventA [VInt 42] ].

(** The registrations of [benchmark()]. *)
Definition benchmark_registrations : list (Registration EventType string) :=
  [ {| reg_args := [TInt]; reg_event := EventA; reg_callable := "plus one";
       reg_priority := 5 |};
    {| reg_args := [TInt]; reg_event := EventA; reg_callable := "times two";
       reg_priority := 10 |};
    {| reg_args := [TInt]; reg_event := EventA; reg_callable := "minus three";
       reg_priority := 7 |} ].

(** [multithreadedTest()]: one registration, then four threads that
    dispatch on [EventA].  The state at a moment at which the registration
    has returned and three of the threads are inside [dispatch]. *)
Definition multithreaded_register : Op EventType string :=
  OpRegister [TInt] EventA "times three" 5.

Definition multithreaded_test : Shared EventType string :=
  {| mutex_ := {| exclusive_owner := false; shared_owners := 3 |};
     in_progress := [ OpDispatch EventA [VInt 2]; OpDispatch EventA [VInt 1];
                      OpDispatch EventA [VInt 0] ];
     guarded := (step multithreaded_register fresh).2 |}.

(** The handlers of [unitTests()] with their bodies: each appends its line
    to what [std::cout] has received. *)
Definition printer (name : string) : Body (list string) :=
  fun args out =>
    match args with
    | [VString msg] => Returns (out ++ [name +:+ ": " +:+ msg])
    | _ => Returns out
    end.

Definition unit_tests_bodies : EventDispatcher EventType (Body (list string)) :=
  (registerHandler [TString] EventB (printer "Handler 3") 1
    (registerHandler [TString] EventB (printer "Handler 2") 10
      (registerHandler [TString] EventB (printer "Handler 1") 5 fresh).2).2).2.

(** The lambdas of [benchmark()] take an [int] and leave nothing behind. *)
Definition silent : Body (list string) := fun _ out => Returns out.

(** [unitTests()] with a handler for an [int], of priority 20, added to the
    handlers for a [std::string]. *)
Definition mixed_signatures : EventDispatcher EventType (Body (list string)) :=
  (registerHandler [TInt] EventB silent 20 unit_tests_bodies).2.

(** A callable that throws at once. *)
Definition thrower : Body (list string) := fun _ out => Throws out.

(** [unitTests()] with a throwing handler of priority 7 added. *)
Definition unit_tests_thrower : EventDispatcher EventType (Body (list string)) :=
  (registerHandler [TString] EventB thrower 7 unit_tests_bodies).2.

(** * Specification vocabulary *)

Section SearchSpec.
Context {A : Type}.

(** The precondition of [std::upper_bound]: once [comp val] holds at an
    index it holds at every later one. *)
Definition partitioned (comp : Z -> A -> bool) (val : Z) (vec : list A) : Prop :=
  forall (i j : nat) (x y : A),
    (i <= j)%nat -> vec !! i = Some x -> vec !! j = Some y ->
    comp val x = true -> comp val y = true.
End SearchSpec.

(** Lists kept in descending key order. *)

Section OrderSpec.
Context {A : Type} (key : A -> Z).
Implicit Types (vec : list A) (p : Z).

Definition key_gt (p : Z) (x : A) : bool := p >? key x.

(** [x] may stand before [y]. *)
Definition desc : relation A := fun x y => key y <= key x.

Definition descending vec : Prop := StronglySorted desc vec.

(** The entries of key [p], in the order the list has them. *)
Definition with_key p vec : list A := List.filter (fun x => key x =? p) vec.

End OrderSpec.

Section HistorySpec.
Context {EventEnum : Type} `{Countable EventEnum} {Callable : Type}.

Abbreviation Handler := (HandlerBase Callable).
Abbreviation Dispatcher := (EventDispatcher EventEnum Callable).

(** Registration history.

    A specification-level record kept beside the dispatcher: for every
    category the handlers registered to it and not unregistered since,
    in the order of their registration. *)
Definition History : Type := EventEnum -> list Handler.

Definition no_history : History := fun _ => [].

Definition record (op : Op EventEnum Callable) (d : Dispatcher) (log : History) : History :=
  match op with
  | OpRegister args event callable prio =>
      fun c =>
        if decide (c = event)
        then log c ++ [mkHandler (next_id_ d) prio args callable]
        else log c
  | OpUnregister event i =>
      fun c =>
        if decide (c = event)
        then List.filter (fun h => negb (id h =? i)%N) (log c)
        else log c
  | OpDispatch _ _ => log
  end.

Fixpoint history (ops : list (Op EventEnum Callable)) (d : Dispatcher) (log : History) : History :=
  match ops with
  | [] => log
  | op :: ops' => history ops' (step op d).2 (record op d log)
  end.

(** The handlers that the calls [rs], answered with the ids [ids], put on
    category [c], in the order of the calls. *)
Fixpoint issued_on (c : EventEnum) (ids : list HandlerId) (rs : list (Registration EventEnum Callable))
    : list Handler :=
  match ids, rs with
  | i :: ids', r :: rs' =>
      if decide (reg_event r = c)
      then mkHandler i (reg_priority r) (reg_args r) (reg_callable r) :: issued_on c ids' rs'
      else issued_on c ids' rs'
  | _, _ => []
  end.

(** The ordering invariant. *)
Definition ordered (d : Dispatcher) (log : History) : Prop :=
  forall c,
    descending priority (handlers_of d c) /\
    handlers_of d c ≡ₚ log c /\
    forall p, with_key priority p (handlers_of d c) = with_key priority p (log c).

(** The counter has not wrapped: [b] registrations-plus-one have been
    counted without reduction, the stored counter is [b] reduced, and
    every list holds pairwise distinct ids, all below [b]. *)
Definition unwrapped (b : N) (d : Dispatcher) : Prop :=
  (b <= SIZE_MOD)%N /\
  next_id_ d = (b mod SIZE_MOD)%N /\
  forall c,
    NoDup (map id (handlers_of d c)) /\
    Forall (fun h => (id h < b)%N) (handlers_of d c).

End HistorySpec.

Arguments History EventEnum Callable : clear implicits.

Section LockSpec.
Context {EventEnum : Type} `{Countable EventEnum} {Callable : Type}.

(** What the mutex knows agrees with the calls in progress. *)
Definition lock_consistent (s : Shared EventEnum Callable) : Prop :=
  if exclusive_owner (mutex_ s)
  then shared_owners (mutex_ s) = 0%nat /\
       exists op, in_progress s = [op] /\ lock_taken op = UniqueLock
  else shared_owners (mutex_ s) = length (in_progress s) /\
       Forall (fun op => lock_taken op = SharedLock) (in_progress s).

End LockSpec.

(** * Verification *)

(** ** The binary search finds the partition point *)

Section AlgorithmFacts.
Context {A : Type}.
Implicit Types (vec : list A) (comp : Z -> A -> bool).

Lemma upper_bound_loop_spec comp val vec :
  partitioned comp val vec ->
  forall fuel first count : nat,
    (count <= fuel)%nat ->
    (first + count <= length vec)%nat ->
    (forall j x, (j < first)%nat -> vec !! j = Some x -> comp val x = false) ->
    (forall j x, (first + count <= j)%nat -> vec !! j = Some x -> comp val x = true) ->
    let r := upper_bound_loop comp val vec fuel first count in
    (r <= length vec)%nat /\
    (forall j x, (j < r)%nat -> vec !! j = Some x -> comp val x = false) /\
    (forall j x, (r <= j)%nat -> vec !! j = Some x -> comp val x = true).
Proof.
  intros Hpart fuel. induction fuel as [|fuel IH]; intros first count Hfuel Hlen Hlo Hhi.
  - assert (count = 0)%nat as -> by lia. simpl.
    split; [lia|]. split; [exact Hlo|].
    intros j x Hj. apply Hhi. lia.
  - cbn [upper_bound_loop]. destruct (Nat.eqb_spec count 0) as [->|Hpos].
    { split; [lia|]. split; [exact Hlo|]. intros j x Hj. apply Hhi. lia. }
    assert (count / 2 < count)%nat as Hstep by (apply Nat.div_lt; lia).
    destruct (lookup_lt_is_Some_2 vec (first + count / 2)%nat) as [mid Hmid]; [lia|].
    rewrite Hmid. destruct (comp val mid) eqn:Hc.
    + apply IH; [lia|lia|exact Hlo|].
      intros j x Hj Hx. eapply (Hpart (first + count / 2)%nat j); eauto.
    + apply IH; [lia|lia| |].
      * intros j x Hj Hx. destruct (comp val x) eqn:Hcx; [|done].
        rewrite (Hpart j (first + count / 2)%nat x mid) in Hc; [done|lia|done..].
      * intros j x Hj Hx. apply (Hhi j); [lia|done].
Qed.

Lemma upper_bound_spec comp val vec :
  partitioned comp val vec ->
  let r := upper_bound comp val vec in
  (r <= length vec)%nat /\
  Forall (fun x => comp val x = false) (take r vec) /\
  Forall (fun x => comp val x = true) (drop r vec).
Proof.
  intros Hpart r.
  destruct (upper_bound_loop_spec comp val vec Hpart (length vec) 0%nat (length vec))
    as (Hr & Hlo & Hhi); [lia|lia|intros; lia| |].
  { intros j x Hj Hx. apply lookup_lt_Some in Hx. lia. }
  fold (upper_bound comp val vec) in Hr, Hlo, Hhi. fold r in Hr, Hlo, Hhi.
  split; [done|]. split.
  - apply Forall_lookup_2. intros j x Hx.
    pose proof (lookup_lt_Some _ _ _ Hx) as Hlt. rewrite length_take in Hlt.
    rewrite lookup_take_lt in Hx by lia. apply (Hlo j); [lia|done].
  - apply Forall_lookup_2. intros j x Hx.
    rewrite lookup_drop in Hx. apply (Hhi (r + j)%nat); [lia|done].
Qed.
End AlgorithmFacts.

(** ** Lists kept in descending key order *)

Section Ordered.
Context {A : Type} (key : A -> Z).
Implicit Types (vec : list A) (p : Z).

Lemma StronglySorted_lookup_lt (R : relation A) vec (i j : nat) x y :
  StronglySorted R vec -> (i < j)%nat ->
  vec !! i = Some x -> vec !! j = Some y -> R x y.
Proof.
  intros Hs. revert i j. induction Hs as [|a l Hs IH Hall]; intros i j Hij Hx Hy.
  - by rewrite lookup_nil in Hx.
  - destruct j as [|j]; [lia|]. destruct i as [|i]; simpl in *.
    + injection Hx as <-. rewrite Forall_forall in Hall.
      apply Hall. by eapply list_elem_of_lookup_2.
    + apply (IH i j); [lia|done..].
Qed.

Lemma descending_partitioned vec p :
  descending key vec -> partitioned (key_gt key) p vec.
Proof.
  intros Hs i j x y Hij Hx Hy. unfold key_gt.
  destruct (decide (i = j)) as [->|Hne]; [congruence|].
  assert (desc key x y) as Hd
    by (eapply (StronglySorted_lookup_lt (desc key) vec i j); [done|lia|done..]).
  unfold desc in Hd. lia.
Qed.

(** On a descending list the search stops right after the entries whose
    key is at least [p]: everything before has key [>= p], everything
    from there on has key [< p]. *)
Lemma insert_point vec p :
  descending key vec ->
  let r := upper_bound (key_gt key) p vec in
  Forall (fun x => p <= key x) (take r vec) /\
  Forall (fun x => key x < p) (drop r vec).
Proof.
  intros Hs r.
  destruct (upper_bound_spec (key_gt key) p vec (descending_partitioned vec p Hs))
    as (_ & Hlo & Hhi).
  split; (eapply Forall_impl; [eassumption|]); unfold key_gt; intros x Hx; simpl in Hx; lia.
Qed.

Lemma insert_descending vec h :
  descending key vec ->
  descending key (vec_insert (upper_bound (key_gt key) (key h) vec) h vec).
Proof.
  intros Hs. destruct (insert_point vec (key h) Hs) as [Hlo Hhi].
  set (r := upper_bound (key_gt key) (key h) vec) in *.
  unfold vec_insert, descending in *.
  rewrite <- (take_drop r vec) in Hs.
  apply StronglySorted_app in Hs as (Hx & Hl & Hr).
  rewrite Forall_forall in Hlo, Hhi.
  apply StronglySorted_app_2; [|done|].
  - intros x1 x2 H1 [->|H2]%elem_of_cons.
    + apply Hlo. done.
    + by apply Hx.
  - constructor; [done|]. apply Forall_forall. intros x Hin.
    unfold desc. specialize (Hhi x Hin). lia.
Qed.

(** With pairwise distinct keys the order is strict. *)
Lemma descending_strict vec :
  descending key vec -> NoDup (map key vec) ->
  StronglySorted (fun x y => key y < key x) vec.
Proof.
  unfold descending. induction 1 as [|x l Hs IH Hall]; intros Hnd; [constructor|].
  simpl in Hnd. apply NoDup_cons in Hnd as [Hx Hnd].
  constructor; [by apply IH|].
  rewrite Forall_forall in Hall |- *. intros y Hy.
  specialize (Hall y Hy). unfold desc in Hall.
  assert (key y ≠ key x); [|lia].
  intros Heq. apply Hx. rewrite <- Heq. by apply list_elem_of_fmap_2.
Qed.

Lemma with_key_app p vec1 vec2 :
  with_key key p (vec1 ++ vec2) = with_key key p vec1 ++ with_key key p vec2.
Proof. apply List.filter_app. Qed.

Lemma with_key_below p vec :
  Forall (fun x => key x < p) vec -> with_key key p vec = [].
Proof.
  induction 1 as [|x l Hx _ IH]; [done|]. unfold with_key in *. simpl.
  destruct (Z.eqb_spec (key x) p); [lia|done].
Qed.

(** Among the entries of one key the new one comes last: insertion is
    first-in first-out within a key. *)
Lemma insert_with_key vec h p :
  descending key vec ->
  with_key key p (vec_insert (upper_bound (key_gt key) (key h) vec) h vec)
  = with_key key p (vec ++ [h]).
Proof.
  intros Hs. destruct (insert_point vec (key h) Hs) as [_ Hhi].
  set (r := upper_bound (key_gt key) (key h) vec) in *. unfold vec_insert.
  rewrite <- (take_drop r vec) at 3.
  rewrite !with_key_app. rewrite <- app_assoc. f_equal.
  change (h :: drop r vec) with ([h] ++ drop r vec). rewrite with_key_app.
  unfold with_key at 1 4. simpl. destruct (Z.eqb_spec (key h) p) as [<-|Hne].
  - rewrite (with_key_below (key h) (drop r vec) Hhi). done.
  - simpl. by rewrite app_nil_r.
Qed.

Lemma insert_Permutation (i : nat) h vec : vec_insert i h vec ≡ₚ h :: vec.
Proof.
  unfold vec_insert. rewrite <- Permutation_middle. by rewrite take_drop.
Qed.

Lemma erase_Permutation (pred : A -> bool) vec1 vec2 :
  vec1 ≡ₚ vec2 -> erase_remove_if pred vec1 ≡ₚ erase_remove_if pred vec2.
Proof.
  unfold erase_remove_if.
  induction 1 as [|x l1 l2 _ IH|x y l|l1 l2 l3 _ IH1 _ IH2]; simpl.
  - done.
  - destruct (pred x); simpl; [done|by constructor].
  - destruct (pred x), (pred y); simpl; try done. apply perm_swap.
  - by etrans.
Qed.

Lemma erase_sublist (pred : A -> bool) vec :
  erase_remove_if pred vec `sublist_of` vec.
Proof.
  unfold erase_remove_if. induction vec as [|x l IH]; simpl; [done|].
  destruct (pred x); simpl; by constructor.
Qed.

Lemma erase_descending (pred : A -> bool) vec :
  descending key vec -> descending key (erase_remove_if pred vec).
Proof.
  unfold descending, erase_remove_if.
  induction 1 as [|x l Hs IH Hall]; simpl; [constructor|].
  destruct (pred x); simpl; [done|].
  constructor; [done|]. rewrite Forall_forall in *.
  intros y [Hy _]%list_elem_of_In%List.filter_In. apply Hall. by apply list_elem_of_In.
Qed.

Lemma erase_with_key (pred : A -> bool) p vec :
  with_key key p (erase_remove_if pred vec) = erase_remove_if pred (with_key key p vec).
Proof.
  unfold with_key, erase_remove_if.
  induction vec as [|x l IH]; simpl; [done|].
  destruct (pred x) eqn:Hp, (key x =? p) eqn:Hk; simpl; rewrite ?Hp, ?Hk; simpl; congruence.
Qed.
End Ordered.

(** ** How each operation changes the handler lists *)

Section OperationFacts.
Context {EventEnum : Type} `{Countable EventEnum} {Callable : Type}.

Abbreviation Handler := (HandlerBase Callable).
Abbreviation Dispatcher := (EventDispatcher EventEnum Callable).
Implicit Types (d : Dispatcher) (c event : EventEnum) (h : Handler).

Lemma handlers_of_register args event callable prio d c :
  handlers_of (registerHandler args event callable prio d).2 c
  = if decide (c = event)
    then vec_insert (upper_bound prio_gt prio (handlers_of d event))
           (mkHandler (next_id_ d) prio args callable) (handlers_of d event)
    else handlers_of d c.
Proof.
  unfold handlers_of, registerHandler. simpl.
  destruct (decide (c = event)) as [->|Hne].
  - by rewrite lookup_insert_eq.
  - by rewrite lookup_insert_ne.
Qed.

Lemma handlers_of_unregister event i d c :
  handlers_of (unregisterHandler event i d) c
  = if decide (c = event)
    then erase_remove_if (fun h => (id h =? i)%N) (handlers_of d event)
    else handlers_of d c.
Proof.
  unfold handlers_of, unregisterHandler.
  destruct (handlers_ d !! event) as [vec|] eqn:Hvec; simpl.
  - destruct (decide (c = event)) as [->|Hne].
    + by rewrite lookup_insert_eq.
    + by rewrite lookup_insert_ne.
  - destruct (decide (c = event)) as [->|Hne]; [|done]. by rewrite Hvec.
Qed.

Lemma handlers_of_fresh c : handlers_of (fresh : Dispatcher) c = [].
Proof. unfold handlers_of, fresh. simpl. by rewrite lookup_empty. Qed.

Lemma dispatch_state event tup d : (dispatch event tup d).1 = d.
Proof. unfold dispatch. by destruct (handlers_ d !! event). Qed.

Lemma dispatch_calls event tup d :
  (dispatch event tup d).2 = map (fun h => call h tup) (handlers_of d event).
Proof. unfold dispatch, handlers_of. by destruct (handlers_ d !! event). Qed.

Lemma dispatch_callees event tup d :
  map callee (dispatch event tup d).2 = handlers_of d event.
Proof.
  rewrite dispatch_calls, map_map. simpl. apply map_id.
Qed.

(** *** The ordering invariant *)

Lemma ordered_fresh : ordered (fresh : Dispatcher) no_history.
Proof.
  intros c. rewrite handlers_of_fresh. unfold no_history.
  split; [constructor|]. split; done.
Qed.

Lemma ordered_step op d log :
  ordered d log -> ordered (step op d).2 (record op d log).
Proof.
  intros Hord c.
  destruct op as [args event callable prio|event i|event tup];
    unfold step, record; cbv zeta; cbn [snd].
  - rewrite handlers_of_register.
    destruct (decide (c = event)) as [->|Hne]; [|apply Hord].
    destruct (Hord event) as (Hs & Hp & Hk).
    set (h := mkHandler (next_id_ d) prio args callable).
    change prio_gt with (key_gt (A:=Handler) priority).
    change prio with (priority h) at 1 2 3.
    split; [by apply insert_descending|]. split.
    + rewrite insert_Permutation. rewrite Hp.
      by rewrite <- Permutation_cons_append.
    + intros p. rewrite insert_with_key by done.
      rewrite !with_key_app. by rewrite Hk.
  - rewrite handlers_of_unregister.
    destruct (decide (c = event)) as [->|Hne]; [|apply Hord].
    destruct (Hord event) as (Hs & Hp & Hk).
    split; [by apply erase_descending|]. split.
    + by apply erase_Permutation.
    + intros p. rewrite erase_with_key, Hk.
      by rewrite <- erase_with_key.
  - rewrite dispatch_state. apply Hord.
Qed.

Lemma ordered_run ops d log :
  ordered d log -> ordered (run ops d).2 (history ops d log).
Proof.
  revert d log. induction ops as [|op ops IH]; intros d log Hord; [done|].
  simpl. apply IH. by apply ordered_step.
Qed.
End OperationFacts.

(** ** The ordering contract *)

Section Ordering.
Context {EventEnum : Type} `{Countable EventEnum} {Callable : Type}.

Abbreviation Handler := (HandlerBase Callable).
Abbreviation Dispatcher := (EventDispatcher EventEnum Callable).
Implicit Types (d : Dispatcher) (c event : EventEnum) (h : Handler).

Lemma register_all_ordered rs d c :
  descending priority (handlers_of d c) ->
  let ids := (register_all rs d).1 in
  let d' := (register_all rs d).2 in
  descending priority (handlers_of d' c) /\
  handlers_of d' c ≡ₚ handlers_of d c ++ issued_on c ids rs /\
  forall p, with_key priority p (handlers_of d' c)
            = with_key priority p (handlers_of d c ++ issued_on c ids rs).
Proof.
  revert d. induction rs as [|r rs IH]; intros d Hs; cbn [register_all]; cbv zeta.
  - cbn [fst snd issued_on]. rewrite app_nil_r. done.
  - cbn [fst snd]. set (s := registerHandler _ _ _ _ d).
    assert (s.1 = next_id_ d) as Hid by done.
    pose proof (handlers_of_register (reg_args r) (reg_event r) (reg_callable r)
                  (reg_priority r) d c) as Hreg. fold s in Hreg.
    cbn [issued_on]. rewrite Hid.
    destruct (decide (c = reg_event r)) as [->|Hne].
    + rewrite decide_True by done.
      set (h := mkHandler (next_id_ d) (reg_priority r) (reg_args r) (reg_callable r)) in *.
      change prio_gt with (key_gt (A:=Handler) priority) in Hreg.
      change (reg_priority r) with (priority h) in Hreg at 1.
      destruct (IH s.2) as (Hs' & Hp' & Hk').
      { rewrite Hreg. by apply insert_descending. }
      split; [done|]. split.
      * rewrite Hp', Hreg, insert_Permutation. simpl. apply Permutation_middle.
      * intros p. rewrite Hk', Hreg. rewrite !with_key_app.
        rewrite insert_with_key by done. rewrite with_key_app.
        rewrite <- app_assoc. f_equal. symmetry. apply (with_key_app priority p [h]).
    + rewrite decide_False by done.
      destruct (IH s.2) as (Hs' & Hp' & Hk'); [by rewrite Hreg|].
      rewrite Hreg in Hp', Hk'. done.
Qed.

(** C1.  Register any sequence of handlers on a fresh dispatcher and then
    dispatch on a category: the handlers invoked are exactly the ones
    registered on that category, each handed the caller's arguments; they
    run by descending priority, strictly descending when the priorities
    differ, and those of one priority run in the order of their
    registration.  In particular, after registering priorities 5
    (id A), 10 (id B) and 7 (id C) on one category, dispatching on it
    invokes B, then C, then A. *)
Theorem dispatch_priority_order :
  (forall (rs : list (Registration EventEnum Callable)) (c : EventEnum) (tup : Tuple),
     let ids := (register_all rs fresh).1 in
     let d := (register_all rs fresh).2 in
     let calls := (dispatch c tup d).2 in
     descending priority (map callee calls) /\
     (forall p, with_key priority p (map callee calls)
                = with_key priority p (issued_on c ids rs)) /\
     map callee calls ≡ₚ issued_on c ids rs /\
     (NoDup (map priority (issued_on c ids rs)) ->
      StronglySorted (fun h1 h2 => priority h2 < priority h1) (map callee calls)) /\
     Forall (fun inv => passed inv = tup) calls) /\
  (forall (X : EventEnum) (argsA argsB argsC : list ctype) (fA fB fC : Callable)
          (tup : Tuple),
     let rA := registerHandler argsA X fA 5 fresh in
     let rB := registerHandler argsB X fB 10 rA.2 in
     let rC := registerHandler argsC X fC 7 rB.2 in
     map (fun inv => id (callee inv)) (dispatch X tup rC.2).2 = [rB.1; rC.1; rA.1]).
Proof.
  split.
  - intros rs c tup ids d calls. subst calls.
    rewrite dispatch_callees.
    destruct (register_all_ordered rs fresh c) as (Hs & Hp & Hk).
    { rewrite handlers_of_fresh. constructor. }
    fold ids d in Hs, Hp, Hk.
    rewrite handlers_of_fresh in Hp, Hk. simpl in Hp, Hk.
    split; [done|]. split; [done|]. split; [done|]. split.
    + intros Hnd. apply descending_strict; [done|]. by rewrite Hp.
    + rewrite dispatch_calls. apply Forall_forall.
      intros inv (h & -> & _)%list_elem_of_fmap. done.
  - intros X argsA argsB argsC fA fB fC tup rA rB rC.
    rewrite <- (map_map callee id). rewrite dispatch_callees.
    subst rC. rewrite handlers_of_register, decide_True by done.
    subst rB. rewrite handlers_of_register, decide_True by done.
    subst rA. rewrite handlers_of_register, decide_True by done.
    rewrite handlers_of_fresh. reflexivity.
Qed.

(** C2.  In every state reached from the fresh dispatcher by register,
    unregister and dispatch operations, the handler list of every category
    holds exactly the handlers registered to it and not unregistered
    since, in descending priority order and, within one priority, in
    registration order (it lists the handlers of that priority exactly as
    the registration history does).  A further register puts its entry
    right before the first entry of strictly smaller priority, after all
    entries of priority at least its own; a further unregister keeps the
    remaining entries in their order. *)
Theorem handler_lists_sorted (ops : list (Op EventEnum Callable)) (c : EventEnum) :
  let d := (run ops fresh).2 in
  let log := history ops fresh no_history in
  (descending priority (handlers_of d c) /\
   handlers_of d c ≡ₚ log c /\
   forall p, with_key priority p (handlers_of d c) = with_key priority p (log c)) /\
  (forall args callable prio,
     let r := registerHandler args c callable prio d in
     exists before after,
       handlers_of d c = before ++ after /\
       handlers_of r.2 c = before ++ mkHandler r.1 prio args callable :: after /\
       Forall (fun h => prio <= priority h) before /\
       Forall (fun h => priority h < prio) after) /\
  (forall i,
     handlers_of (unregisterHandler c i d) c
     = List.filter (fun h => negb (id h =? i)%N) (handlers_of d c)).
Proof.
  intros d log.
  destruct (ordered_run ops fresh no_history ordered_fresh c) as (Hs & Hp & Hk).
  fold d log in Hs, Hp, Hk. split; [done|]. split.
  - intros args callable prio r.
    exists (take (upper_bound prio_gt prio (handlers_of d c)) (handlers_of d c)),
           (drop (upper_bound prio_gt prio (handlers_of d c)) (handlers_of d c)).
    split; [by rewrite take_drop|]. split.
    + subst r. by rewrite handlers_of_register, decide_True.
    + by apply (insert_point priority).
  - intros i. by rewrite handlers_of_unregister, decide_True.
Qed.
End Ordering.

(** ** Handler ids *)

Section Identity.
Context {EventEnum : Type} `{Countable EventEnum} {Callable : Type}.

Abbreviation Dispatcher := (EventDispatcher EventEnum Callable).
Implicit Types (d : Dispatcher) (c event : EventEnum).

Lemma step_next_id (op : Op EventEnum Callable) d :
  next_id_ (step op d).2
  = match op with
    | OpRegister _ _ _ _ => ((next_id_ d + 1) mod SIZE_MOD)%N
    | _ => next_id_ d
    end.
Proof.
  destruct op as [args event callable prio|event i|event tup];
    unfold step; cbv zeta; cbn [snd]; [done| |by rewrite dispatch_state].
  unfold unregisterHandler. by destruct (handlers_ d !! event).
Qed.

Lemma issued_ids_cons (o : Outcome Callable) os :
  issued_ids (o :: os)
  = match o with Registered i => i :: issued_ids os | _ => issued_ids os end.
Proof. by destruct o. Qed.

Lemma registrations_cons (op : Op EventEnum Callable) ops :
  registrations (op :: ops)
  = match op with OpRegister _ _ _ _ => S (registrations ops) | _ => registrations ops end.
Proof. by destruct op. Qed.

(** The [k]-th registration of a run that starts with counter [n] is
    answered with [n + k] modulo the size of [size_t]. *)
Lemma run_issued_ids (ops : list (Op EventEnum Callable)) d :
  (next_id_ d < SIZE_MOD)%N ->
  issued_ids (run ops d).1
  = map (fun k : nat => ((next_id_ d + N.of_nat k) mod SIZE_MOD)%N)
        (seq 0 (registrations ops)).
Proof.
  revert d. induction ops as [|op ops IH]; intros d Hlt; [done|].
  cbn [run]. cbv zeta. cbn [fst snd].
  assert (next_id_ (step op d).2 < SIZE_MOD)%N as Hlt'.
  { rewrite step_next_id. destruct op; try done. by apply N.mod_lt. }
  specialize (IH _ Hlt'). rewrite step_next_id in IH.
  rewrite issued_ids_cons, registrations_cons, IH.
  destruct op as [args event callable prio|event i|event tup];
    unfold step; cbv zeta; cbn [fst]; [|done..].
  cbn [seq map]. f_equal.
  - rewrite N.add_0_r. by rewrite N.mod_small.
  - rewrite <- seq_shift, map_map. apply map_ext. intros k.
    rewrite N.Div0.add_mod_idemp_l. f_equal. lia.
Qed.

(** C4.  Whatever the categories and whatever unregister and dispatch
    calls come in between, the ids returned by the registrations on a
    dispatcher are pairwise distinct and none of them is 0.  The number of
    registrations stays within the id space, [2^64] values, which is taken
    never to be exhausted. *)
Theorem handler_ids_distinct (ops : list (Op EventEnum Callable)) :
  (N.of_nat (registrations ops) < SIZE_MOD)%N ->
  NoDup (issued_ids (run ops fresh).1) /\ 0%N ∉ issued_ids (run ops fresh).1.
Proof.
  intros Hn. rewrite (run_issued_ids ops fresh) by done.
  change (next_id_ fresh) with 1%N.
  assert (forall k : nat, k ∈ seq 0 (registrations ops) ->
            ((1 + N.of_nat k) mod SIZE_MOD = 1 + N.of_nat k)%N) as Hsmall.
  { intros k Hk%elem_of_seq. apply N.mod_small. lia. }
  split.
  - apply NoDup_fmap_2_strong; [|apply NoDup_seq].
    intros j k Hj Hk. rewrite (Hsmall j Hj), (Hsmall k Hk). lia.
  - intros (k & Hz & Hk)%list_elem_of_fmap. rewrite (Hsmall k Hk) in Hz. lia.
Qed.

(** *** Ids stored in the lists *)

Lemma unwrapped_fresh : unwrapped 1 (fresh : Dispatcher).
Proof.
  split; [done|]. split; [done|]. intros c. rewrite handlers_of_fresh.
  split; constructor.
Qed.

Lemma unwrapped_step (op : Op EventEnum Callable) d (b : N) :
  unwrapped b d ->
  (b + match op with OpRegister _ _ _ _ => 1 | _ => 0 end <= SIZE_MOD)%N ->
  unwrapped (b + match op with OpRegister _ _ _ _ => 1 | _ => 0 end) (step op d).2.
Proof.
  intros (Hb & Hnext & Hids) Hle.
  destruct op as [args event callable prio|event i|event tup];
    unfold step; cbv zeta; cbn [snd].
  - split; [done|]. split.
    { cbn. rewrite Hnext. by rewrite N.Div0.add_mod_idemp_l. }
    intros c. rewrite handlers_of_register.
    destruct (decide (c = event)) as [->|Hne].
    + destruct (Hids event) as [Hnd Hlt].
      rewrite Hnext, N.mod_small by lia.
      set (h := mkHandler b prio args callable).
      rewrite (insert_Permutation (upper_bound prio_gt prio (handlers_of d event)) h).
      split.
      * simpl. apply NoDup_cons. split; [|done].
        intros (h' & Hid & Hin)%list_elem_of_fmap.
        rewrite Forall_forall in Hlt. specialize (Hlt h' Hin). lia.
      * constructor; [simpl; lia|].
        eapply Forall_impl; [exact Hlt|]. intros h' Hh'. simpl in Hh'. lia.
    + destruct (Hids c) as [Hnd Hlt]. split; [done|].
      eapply Forall_impl; [exact Hlt|]. intros h' Hh'. simpl in Hh'. lia.
  - rewrite N.add_0_r. split; [done|]. split.
    { rewrite <- Hnext. unfold unregisterHandler. by destruct (handlers_ d !! event). }
    intros c. rewrite handlers_of_unregister.
    destruct (decide (c = event)) as [->|Hne]; [|apply Hids].
    destruct (Hids event) as [Hnd Hlt].
    pose proof (erase_sublist (fun h => (id h =? i)%N) (handlers_of d event)) as Hsub.
    split.
    + refine (sublist_NoDup _ _ Hnd _). by apply (fmap_sublist id).
    + rewrite Forall_forall in Hlt |- *. intros h Hh. apply Hlt.
      eapply elem_of_sublist; [exact Hh|exact Hsub].
  - rewrite N.add_0_r, dispatch_state. done.
Qed.

Lemma unwrapped_run (ops : list (Op EventEnum Callable)) d (b : N) :
  unwrapped b d ->
  (b + N.of_nat (registrations ops) <= SIZE_MOD)%N ->
  unwrapped (b + N.of_nat (registrations ops)) (run ops d).2.
Proof.
  revert d b. induction ops as [|op ops IH]; intros d b Hd Hle.
  - cbn. by rewrite N.add_0_r.
  - cbn [run]. cbv zeta. cbn [snd]. rewrite registrations_cons in Hle |- *.
    pose proof (unwrapped_step op d b Hd) as Hstep.
    destruct op as [args event callable prio|event i|event tup].
    + replace (b + N.of_nat (S (registrations ops)))%N
        with ((b + 1) + N.of_nat (registrations ops))%N by lia.
      apply IH; [apply Hstep|]; lia.
    + rewrite N.add_0_r in Hstep. apply IH; [apply Hstep|]; lia.
    + rewrite N.add_0_r in Hstep. apply IH; [apply Hstep|]; lia.
Qed.

(** While fewer than [2^64] handlers have been registered, the handlers
    in one list carry pairwise distinct ids. *)
Lemma stored_ids_distinct (ops : list (Op EventEnum Callable)) c :
  (N.of_nat (registrations ops) < SIZE_MOD)%N ->
  NoDup (map id (handlers_of (run ops (fresh : Dispatcher)).2 c)).
Proof.
  intros Hn.
  destruct (unwrapped_run ops fresh 1 unwrapped_fresh) as (_ & _ & Hids); [lia|].
  apply Hids.
Qed.

(** While the next registration does not bring their number to [2^64],
    the id it will return is carried by no stored handler. *)
Lemma next_id_not_stored (ops : list (Op EventEnum Callable)) c :
  (N.of_nat (S (registrations ops)) < SIZE_MOD)%N ->
  Forall (fun h => id h ≠ next_id_ (run ops (fresh : Dispatcher)).2)
    (handlers_of (run ops (fresh : Dispatcher)).2 c).
Proof.
  intros Hn.
  destruct (unwrapped_run ops fresh 1 unwrapped_fresh) as (_ & Hnext & Hids); [lia|].
  destruct (Hids c) as [_ Hlt]. rewrite Hnext, N.mod_small by lia.
  eapply Forall_impl; [exact Hlt|]. intros h Hh. simpl in Hh. lia.
Qed.

End Identity.

(** ** Dispatch, removal and framing *)

Section Contracts.
Context {EventEnum : Type} `{Countable EventEnum} {Callable : Type}.

Abbreviation Handler := (HandlerBase Callable).
Abbreviation Dispatcher := (EventDispatcher EventEnum Callable).
Implicit Types (d : Dispatcher) (c event : EventEnum) (h : Handler).

Lemma elem_of_vec_insert {A} (i : nat) (x : A) (vec : list A) :
  x ∈ vec_insert i x vec.
Proof. unfold vec_insert. set_solver. Qed.

Lemma erase_remove_if_id {A} (pred : A -> bool) (vec : list A) :
  Forall (fun x => pred x = false) vec -> erase_remove_if pred vec = vec.
Proof.
  unfold erase_remove_if. induction 1 as [|x l Hx _ IH]; [done|].
  simpl. by rewrite Hx, IH.
Qed.


Lemma erase_exactly_one {A} (f : A -> N) (x : A) (before after : list A) :
  NoDup (map f (before ++ x :: after)) ->
  erase_remove_if (fun y => (f y =? f x)%N) (before ++ x :: after) = before ++ after.
Proof.
  rewrite map_app. simpl. intros Hnd.
  apply NoDup_app in Hnd as (_ & Hsep & Hnd). apply NoDup_cons in Hnd as [Hx _].
  unfold erase_remove_if. rewrite List.filter_app. simpl.
  rewrite N.eqb_refl. simpl. f_equal.
  - apply erase_remove_if_id. apply Forall_forall. intros y Hy.
    apply N.eqb_neq. intros Heq. apply (Hsep (f y)).
    + by apply list_elem_of_fmap_2.
    + rewrite Heq. apply list_elem_of_here.
  - apply erase_remove_if_id. apply Forall_forall. intros y Hy.
    apply N.eqb_neq. intros Heq. apply Hx. rewrite <- Heq.
    by apply list_elem_of_fmap_2.
Qed.

Lemma dispatch_calls_elem d c (tup : Tuple) h :
  h ∈ handlers_of d c -> call h tup ∈ (dispatch c tup d).2.
Proof.
  intros Hh. rewrite dispatch_calls. apply list_elem_of_fmap. by exists h.
Qed.

Lemma dispatch_empty d c (tup : Tuple) :
  handlers_of d c = [] -> dispatch c tup d = (d, []).
Proof.
  unfold handlers_of, dispatch.
  destruct (handlers_ d !! c) as [vec|]; simpl; [|done]. by intros ->.
Qed.

(** Operations other than a registration on [c] cannot make the list of
    [c] non-empty. *)
Lemma never_registered_no_handlers
    (ops : list (Op EventEnum Callable)) c d :
  Forall (fun op => match op with OpRegister _ e _ _ => e ≠ c | _ => True end) ops ->
  handlers_of d c = [] ->
  handlers_of (run ops d).2 c = [].
Proof.
  intros Hall. revert d. induction Hall as [|op ops Hop _ IH]; intros d Hd; [done|].
  cbn [run]. cbv zeta. cbn [snd]. apply IH.
  destruct op as [args event callable prio|event i|event tup];
    unfold step; cbv zeta; cbn [snd].
  - by rewrite handlers_of_register, decide_False.
  - rewrite handlers_of_unregister. destruct (decide (c = event)) as [->|]; [|done].
    by rewrite Hd.
  - by rewrite dispatch_state.
Qed.

Lemma unregister_absent event i d :
  handlers_ d !! event = None -> unregisterHandler event i d = d.
Proof. intros Hnone. unfold unregisterHandler. by rewrite Hnone. Qed.

Lemma unregister_not_found event i d :
  Forall (fun h => id h ≠ i) (handlers_of d event) -> unregisterHandler event i d = d.
Proof.
  intros Hall. unfold unregisterHandler, handlers_of in *.
  destruct (handlers_ d !! event) as [vec|] eqn:Hvec; [|done]. simpl in Hall.
  rewrite erase_remove_if_id.
  - rewrite insert_id by done. by destruct d.
  - eapply Forall_impl; [exact Hall|]. intros h Hh. simpl. by apply N.eqb_neq.
Qed.

Lemma unregister_idemp event i d :
  unregisterHandler event i (unregisterHandler event i d) = unregisterHandler event i d.
Proof.
  apply unregister_not_found. rewrite handlers_of_unregister, decide_True by done.
  apply Forall_forall. unfold erase_remove_if.
  intros h [_ Hh]%list_elem_of_In%List.filter_In.
  apply N.eqb_neq. by destruct (id h =? i)%N.
Qed.

(** C5.  [unregisterHandler] takes the entries with the given id out of the
    category's list and leaves the others in place.  It changes nothing,
    and fails in no way, when the category has no list or no entry has the
    id, so a second call with the same arguments changes nothing.  On a
    dispatcher that has seen fewer than [2^64] registrations ids are not
    shared, and unregistering the id of a stored handler removes that one
    entry.  After unregistering id B in the three-handler example,
    dispatching invokes C and then A. *)
Theorem unregister_removes_idempotent :
  (forall d c (i : HandlerId),
     handlers_of (unregisterHandler c i d) c
     = List.filter (fun h => negb (id h =? i)%N) (handlers_of d c) /\
     next_id_ (unregisterHandler c i d) = next_id_ d /\
     (handlers_ d !! c = None -> unregisterHandler c i d = d) /\
     (Forall (fun h => id h ≠ i) (handlers_of d c) -> unregisterHandler c i d = d) /\
     unregisterHandler c i (unregisterHandler c i d) = unregisterHandler c i d) /\
  (forall (ops : list (Op EventEnum Callable)) c h (before after : list Handler),
     (N.of_nat (registrations ops) < SIZE_MOD)%N ->
     handlers_of (run ops fresh).2 c = before ++ h :: after ->
     handlers_of (unregisterHandler c (id h) (run ops fresh).2) c = before ++ after) /\
  (forall (X : EventEnum) (argsA argsB argsC : list ctype) (fA fB fC : Callable)
          (tup : Tuple),
     let rA := registerHandler argsA X fA 5 fresh in
     let rB := registerHandler argsB X fB 10 rA.2 in
     let rC := registerHandler argsC X fC 7 rB.2 in
     let d1 := unregisterHandler X rB.1 rC.2 in
     map (fun inv => id (callee inv)) (dispatch X tup d1).2 = [rC.1; rA.1] /\
     unregisterHandler X rB.1 d1 = d1).
Proof.
  split.
  - intros d c i. split; [by rewrite handlers_of_unregister, decide_True|].
    split; [|split; [|split]].
    + unfold unregisterHandler. by destruct (handlers_ d !! c).
    + apply unregister_absent.
    + apply unregister_not_found.
    + apply unregister_idemp.
  - split.
    { intros ops c h before after Hn Hvec.
      rewrite handlers_of_unregister, decide_True by done.
      pose proof (stored_ids_distinct ops c Hn) as Hnd. rewrite Hvec in Hnd |- *.
      by apply (erase_exactly_one id). }
    intros X argsA argsB argsC fA fB fC tup rA rB rC d1.
    split; [|apply unregister_idemp].
    rewrite <- (map_map callee id). rewrite dispatch_callees.
    subst d1. rewrite handlers_of_unregister, decide_True by done.
    subst rC. rewrite handlers_of_register, decide_True by done.
    subst rB. rewrite handlers_of_register, decide_True by done.
    subst rA. rewrite handlers_of_register, decide_True by done.
    rewrite handlers_of_fresh. reflexivity.
Qed.

(** C6.  Dispatching on a category that has no handlers invokes nothing
    and hands back the dispatcher as it was.  This covers a category
    without an entry in the map, which is no error, and in particular a
    category that no registration of the run so far has named. *)
Theorem dispatch_no_listener c (tup : Tuple) :
  (forall d, handlers_of d c = [] -> dispatch c tup d = (d, [])) /\
  (forall d, handlers_ d !! c = None -> dispatch c tup d = (d, [])) /\
  (forall ops : list (Op EventEnum Callable),
     Forall (fun op => match op with OpRegister _ e _ _ => e ≠ c | _ => True end) ops ->
     dispatch c tup (run ops fresh).2 = ((run ops fresh).2, [])).
Proof.
  split; [|split].
  - intros d. apply dispatch_empty.
  - intros d Hnone. unfold dispatch. by rewrite Hnone.
  - intros ops Hops. apply dispatch_empty.
    apply never_registered_no_handlers; [done|apply handlers_of_fresh].
Qed.

(** C7.  [dispatch] hands back the dispatcher it was given: the map from
    categories to handler lists and the id counter are what they were,
    after one dispatch and after any number of them. *)
Theorem dispatch_state_unchanged d c (tup : Tuple) :
  (dispatch c tup d).1 = d /\
  handlers_ (dispatch c tup d).1 = handlers_ d /\
  next_id_ (dispatch c tup d).1 = next_id_ d /\
  (forall ops : list (Op EventEnum Callable),
     Forall (fun op => match op with OpDispatch _ _ => True | _ => False end) ops ->
     (run ops d).2 = d).
Proof.
  rewrite dispatch_state. repeat split.
  intros ops Hops. induction Hops as [|op ops Hop _ IH]; [done|].
  cbn [run]. cbv zeta. cbn [snd].
  destruct op as [| |event tup']; [done..|].
  unfold step. cbv zeta. cbn [snd]. by rewrite dispatch_state.
Qed.

(** C9.  Registering or unregistering on one category leaves the list of
    every other category as it was.  In particular unregistering, on a
    category [c], an id that a registration on another category [c'] has
    returned leaves the list of [c'] alone: the next dispatch on [c']
    still invokes that handler.  On a dispatcher that has seen fewer than
    [2^64 - 1] registrations before, it removes nothing at all. *)
Theorem other_category_untouched d c c' :
  c ≠ c' ->
  (forall args callable prio,
     handlers_ (registerHandler args c callable prio d).2 !! c' = handlers_ d !! c') /\
  (forall i, handlers_ (unregisterHandler c i d) !! c' = handlers_ d !! c') /\
  (forall args callable prio tup,
     let r := registerHandler args c' callable prio d in
     let d' := unregisterHandler c r.1 r.2 in
     handlers_ d' !! c' = handlers_ r.2 !! c' /\
     call (mkHandler r.1 prio args callable) tup ∈ (dispatch c' tup d').2) /\
  (forall (ops : list (Op EventEnum Callable)) args callable prio,
     (N.of_nat (S (registrations ops)) < SIZE_MOD)%N ->
     let r := registerHandler args c' callable prio (run ops fresh).2 in
     unregisterHandler c r.1 r.2 = r.2).
Proof.
  intros Hne.
  assert (forall i (d0 : Dispatcher),
            handlers_ (unregisterHandler c i d0) !! c' = handlers_ d0 !! c') as Hun.
  { intros i d0. unfold unregisterHandler.
    destruct (handlers_ d0 !! c); simpl; [|done]. by rewrite lookup_insert_ne. }
  split; [|split; [|split]].
  - intros args callable prio. unfold registerHandler. simpl.
    by rewrite lookup_insert_ne.
  - intros i. apply Hun.
  - intros args callable prio tup r d'. split; [apply Hun|].
    apply dispatch_calls_elem.
    unfold handlers_of. subst d'. rewrite Hun. fold (handlers_of r.2 c').
    subst r. rewrite handlers_of_register, decide_True by done.
    apply elem_of_vec_insert.
  - intros ops args callable prio Hn r. apply unregister_not_found.
    subst r. rewrite handlers_of_register, decide_False by done.
    apply next_id_not_stored, Hn.
Qed.

End Contracts.

(** ** Dispatching arguments of other types *)

Section Signatures.
Context {EventEnum : Type} `{Countable EventEnum} {World : Type}.

Abbreviation Handler := (HandlerBase (Body World)).
Abbreviation Dispatcher := (EventDispatcher EventEnum (Body World)).
Implicit Types (d : Dispatcher) (c event : EventEnum) (h : Handler) (w : World).

Lemma perform_cast_no_mismatch (calls : list (Invocation (Body World))) w :
  (perform_cast calls w).2 ≠ SignatureMismatch.
Proof.
  revert w. induction calls as [|inv calls IH]; intros w; [done|].
  cbn [perform_cast].
  destruct (decide (Args (callee inv) = types_of (passed inv))); [|done].
  destruct (enter inv w) as [w'|w']; [|done]. cbv zeta. cbn [snd]. apply IH.
Qed.

Lemma perform_cast_app (calls1 calls2 : list (Invocation (Body World))) w w1 :
  perform_cast calls1 w = (calls1, Completes (Returns w1)) ->
  perform_cast (calls1 ++ calls2) w
  = (calls1 ++ (perform_cast calls2 w1).1, (perform_cast calls2 w1).2).
Proof.
  revert w. induction calls1 as [|inv calls1 IH]; intros w Hall.
  - simpl in Hall. injection Hall as ->. simpl. by destruct (perform_cast calls2 w1).
  - cbn [app perform_cast] in Hall |- *.
    destruct (decide (Args (callee inv) = types_of (passed inv))); [|congruence].
    destruct (enter inv w) as [w'|w'] eqn:Hinv; [|congruence].
    destruct (perform_cast calls1 w') as [done1 res1] eqn:Hrest.
    cbv zeta in Hall. cbn [fst snd] in Hall. injection Hall as -> ->.
    rewrite (IH w') by done. done.
Qed.

(** Where all types match, the cast changes nothing. *)
Lemma perform_cast_matching (calls : list (Invocation (Body World))) w :
  Forall (fun inv => Args (callee inv) = types_of (passed inv)) calls ->
  perform_cast calls w = ((perform calls w).1, Completes (perform calls w).2).
Proof.
  intros Hall. revert w. induction Hall as [|inv calls Hinv _ IH]; intros w; [done|].
  cbn [perform_cast perform]. rewrite decide_True by done.
  destruct (enter inv w) as [w'|w']; [|done]. cbv zeta. cbn [fst snd]. by rewrite IH.
Qed.

(** C3 (as amended).  [dispatch] compares no types and has no mismatch
    condition to report.  A stored handler whose registered types are not
    those of the arguments is not skipped: once the handlers ahead of it
    in the list have returned, [Handler::call] is entered on it with the
    caller's tuple cast unchecked, and the behaviour is undefined from
    there on. *)
Theorem dispatch_casts_unchecked :
  (forall d event (tup : Tuple) w,
     (dispatch_cast event tup d w).2 ≠ SignatureMismatch) /\
  (forall d event (tup : Tuple) w w1 (ahead behind : list Handler) h,
     handlers_of d event = ahead ++ h :: behind ->
     perform_cast (map (fun h' => call h' tup) ahead) w
     = (map (fun h' => call h' tup) ahead, Completes (Returns w1)) ->
     Args h ≠ types_of tup ->
     dispatch_cast event tup d w
     = (map (fun h' => call h' tup) (ahead ++ [h]), UndefinedBehaviour)).
Proof.
  split.
  - intros d event tup w. apply perform_cast_no_mismatch.
  - intros d event tup w w1 ahead behind h Hvec Hahead Hne.
    unfold dispatch_cast. rewrite dispatch_calls, Hvec, map_app.
    rewrite (perform_cast_app _ _ w w1 Hahead). cbn [map perform_cast].
    rewrite decide_False by done. simpl. by rewrite map_app.
Qed.
End Signatures.

(** ** The locking discipline *)

Section Locking.
Context {EventEnum : Type} `{Countable EventEnum} {Callable : Type}.

Abbreviation Dispatcher := (EventDispatcher EventEnum Callable).
Abbreviation Call := (Op EventEnum Callable).
Abbreviation State := (Shared EventEnum Callable).
Implicit Types (s : State).

Lemma lock_consistent_step s s' :
  lock_consistent s -> shared_step s s' -> lock_consistent s'.
Proof.
  unfold lock_consistent. intros Hinv Hstep.
  destruct Hstep as [op s m' Hacq|op s before after Hin]; simpl.
  - destruct (mutex_ s) as [ex n]; simpl in *.
    destruct (lock_taken op) eqn:Hop; simpl in Hacq.
    + destruct ex; [done|]. destruct (Nat.eqb_spec n 0) as [->|]; [|done].
      injection Hacq as <-. simpl. split; [done|].
      destruct Hinv as [Hlen _]. symmetry in Hlen. apply length_zero_iff_nil in Hlen.
      rewrite Hlen. by exists op.
    + destruct ex; [done|]. injection Hacq as <-. simpl.
      destruct Hinv as [Hlen Hall]. split; [by rewrite Hlen|by constructor].
  - destruct (mutex_ s) as [ex n]; simpl in *. destruct ex.
    + destruct Hinv as (-> & op' & Hone & Hop'). rewrite Hin in Hone.
      destruct before as [|? [|]]; simplify_eq/=.
      rewrite Hop'. simpl. split; [done|constructor].
    + destruct Hinv as [Hlen Hall]. rewrite Hin in Hlen, Hall.
      apply Forall_app in Hall as [Hb Ha]. apply Forall_cons in Ha as [Hop Ha].
      rewrite Hop. simpl. split.
      * rewrite Hlen, !length_app. simpl. lia.
      * by apply Forall_app.
Qed.

Lemma lock_consistent_reachable s : shared_reachable s -> lock_consistent s.
Proof.
  unfold shared_reachable. revert s. apply rtc_ind_r.
  - unfold lock_consistent, shared_fresh. simpl. split; [done|constructor].
  - intros s1 s2 _ Hstep Hinv. by eapply lock_consistent_step.
Qed.

Lemma dispatches_enter (calls : list Call) :
  Forall (fun op => lock_taken op = SharedLock) calls ->
  rtc shared_step (shared_fresh : State)
    {| mutex_ := {| exclusive_owner := false; shared_owners := length calls |};
       in_progress := calls;
       guarded := fresh |}.
Proof.
  induction 1 as [|op calls Hop _ IH]; [done|].
  eapply rtc_r; [exact IH|].
  apply (call_enters op
           {| mutex_ := {| exclusive_owner := false; shared_owners := length calls |};
              in_progress := calls;
              guarded := fresh |}).
  simpl. by rewrite Hop.
Qed.

(** Wherever the shared dispatcher has got to, a call that takes the mutex
    shared is let in at once when no call holding it exclusively is in
    progress. *)
Lemma shared_call_admitted s (op : Call) :
  shared_reachable s ->
  Forall (fun op' => lock_taken op' = SharedLock) (in_progress s) ->
  lock_taken op = SharedLock ->
  exists s',
    shared_step s s' /\ in_progress s' = op :: in_progress s /\ guarded s' = guarded s.
Proof.
  intros Hr Hall Hop. apply lock_consistent_reachable in Hr.
  unfold lock_consistent in Hr.
  destruct (exclusive_owner (mutex_ s)) eqn:Hex.
  - destruct Hr as (_ & op' & Hone & Hop'). rewrite Hone in Hall.
    apply Forall_cons in Hall as [Hs _]. congruence.
  - eexists. split; [|split].
    + apply (call_enters op s). rewrite Hop. simpl. by rewrite Hex.
    + done.
    + done.
Qed.

(** C8.  [dispatch] takes the mutex shared, [registerHandler] and
    [unregisterHandler] take it exclusively.  Hence, in every state the
    shared dispatcher can reach, a registration or unregistration in
    progress is the only call in progress: it overlaps with no dispatch
    and with no other mutation.  Dispatches do overlap: for any collection
    of dispatch calls, on whatever categories, there is a reachable state
    in which all of them are in progress together; and in every reachable
    state in which no registration or unregistration is in progress,
    whatever has been registered and whatever calls have returned before,
    one more dispatch, and so any number of them, is let in at once beside
    the dispatches in progress. *)
Theorem lock_discipline :
  (forall event tup, lock_taken (OpDispatch event tup : Call) = SharedLock) /\
  (forall args event callable prio,
     lock_taken (OpRegister args event callable prio : Call) = UniqueLock) /\
  (forall event i, lock_taken (OpUnregister event i : Call) = UniqueLock) /\
  (forall s op,
     shared_reachable s -> op ∈ in_progress s -> lock_taken op = UniqueLock ->
     in_progress s = [op]) /\
  (forall calls : list Call,
     Forall (fun op => match op with OpDispatch _ _ => True | _ => False end) calls ->
     exists s, shared_reachable s /\ in_progress s = calls) /\
  (forall s event tup,
     shared_reachable s ->
     Forall (fun op => lock_taken op = SharedLock) (in_progress s) ->
     exists s',
       shared_step s s' /\
       in_progress s' = OpDispatch event tup :: in_progress s /\
       guarded s' = guarded s) /\
  (forall s (calls : list Call),
     shared_reachable s ->
     Forall (fun op => lock_taken op = SharedLock) (in_progress s) ->
     Forall (fun op => match op with OpDispatch _ _ => True | _ => False end) calls ->
     exists s',
       rtc shared_step s s' /\
       in_progress s' = calls ++ in_progress s /\
       guarded s' = guarded s).
Proof.
  split; [done|]. split; [done|]. split; [done|]. split; [|split; [|split]].
  - intros s op Hr Hin Hop. apply lock_consistent_reachable in Hr.
    unfold lock_consistent in Hr. destruct (exclusive_owner (mutex_ s)).
    + destruct Hr as (_ & op' & Hone & _). rewrite Hone in Hin |- *.
      apply list_elem_of_singleton in Hin. by subst.
    + destruct Hr as [_ Hall]. rewrite Forall_forall in Hall.
      specialize (Hall op Hin). congruence.
  - intros calls Hcalls. eexists. split; [apply (dispatches_enter calls)|done].
    eapply Forall_impl; [exact Hcalls|]. by intros [].
  - intros s event tup Hr Hall.
    destruct (shared_call_admitted s (OpDispatch event tup) Hr Hall eq_refl)
      as (s' & Hstep & Hin & Hg).
    by exists s'.
  - intros s calls Hr Hall Hcalls.
    induction Hcalls as [|op calls Hop Hrest IH].
    + exists s. by split.
    + destruct IH as (s1 & Hsteps & Hin1 & Hg1).
      assert (shared_reachable s1) as Hr1 by (unfold shared_reachable; by etrans).
      assert (Forall (fun op => lock_taken op = SharedLock) (in_progress s1)) as Hall1.
      { rewrite Hin1. apply Forall_app. split; [|done].
        eapply Forall_impl; [exact Hrest|]. by intros []. }
      assert (lock_taken op = SharedLock) as Hshared by (by destruct op).
      destruct (shared_call_admitted s1 op Hr1 Hall1 Hshared) as (s2 & Hstep & Hin2 & Hg2).
      exists s2. split; [by eapply rtc_r|]. split; [by rewrite Hin2, Hin1|congruence].
Qed.
End Locking.

(** * Further properties of the code *)

(** ** The search of [registerHandler] on arbitrary lists *)

Section SearchFacts.
Context {A : Type}.
Implicit Types (vec : list A) (comp : Z -> A -> bool).

(** Whatever the comparison answers, the loop stays between [first] and
    [first + count]. *)
Lemma upper_bound_loop_range comp val vec (fuel first count : nat) :
  (first + count <= length vec)%nat ->
  (first <= upper_bound_loop comp val vec fuel first count <= first + count)%nat.
Proof.
  revert first count. induction fuel as [|fuel IH]; intros first count Hlen.
  - simpl. lia.
  - cbn [upper_bound_loop]. destruct (Nat.eqb_spec count 0) as [->|Hpos]; [lia|].
    assert (count / 2 < count)%nat as Hstep by (apply Nat.div_lt; lia).
    destruct (lookup_lt_is_Some_2 vec (first + count / 2)%nat) as [mid Hmid]; [lia|].
    rewrite Hmid. destruct (comp val mid).
    + specialize (IH first (count / 2)%nat). lia.
    + specialize (IH (first + count / 2 + 1)%nat (count - count / 2 - 1)%nat). lia.
Qed.

Lemma upper_bound_range comp val vec : (upper_bound comp val vec <= length vec)%nat.
Proof.
  unfold upper_bound.
  pose proof (upper_bound_loop_range comp val vec (length vec) 0 (length vec)). lia.
Qed.

Lemma filter_all (f : A -> bool) vec :
  Forall (fun x => f x = true) vec -> List.filter f vec = vec.
Proof. induction 1 as [|x l Hx _ IH]; [done|]. simpl. by rewrite Hx, IH. Qed.

Lemma filter_none (f : A -> bool) vec :
  Forall (fun x => f x = false) vec -> List.filter f vec = [].
Proof. induction 1 as [|x l Hx _ IH]; [done|]. simpl. by rewrite Hx. Qed.

(** Halving a positive count lowers its binary logarithm. *)
Lemma log2_halved (count c : nat) :
  (0 < c)%nat -> (c <= count / 2)%nat -> (Nat.log2 c < Nat.log2 count)%nat.
Proof.
  intros Hc Hle.
  assert (0 < count)%nat as Hcount.
  { destruct count; [simpl in Hle; lia|lia]. }
  apply Nat.log2_lt_pow2; [done|].
  destruct (Nat.log2_spec count Hcount) as [_ Hup].
  rewrite Nat.pow_succ_r' in Hup.
  assert (count / 2 < 2 ^ Nat.log2 count)%nat; [|lia].
  apply Nat.Div0.div_lt_upper_bound. lia.
Qed.

(** Once the fuel exceeds the binary logarithm of [count], more fuel
    changes nothing: the loop has stopped by itself. *)
Lemma upper_bound_loop_fuel comp val vec (fuel1 fuel2 first count : nat) :
  (first + count <= length vec)%nat ->
  (count = 0 \/ Nat.log2 count < fuel1)%nat ->
  (count = 0 \/ Nat.log2 count < fuel2)%nat ->
  upper_bound_loop comp val vec fuel1 first count
  = upper_bound_loop comp val vec fuel2 first count.
Proof.
  revert fuel2 first count.
  induction fuel1 as [|fuel1 IH]; intros fuel2 first count Hlen H1 H2.
  - assert (count = 0)%nat as -> by lia. by destruct fuel2.
  - destruct (Nat.eqb_spec count 0) as [->|Hpos]; [by destruct fuel2|].
    destruct fuel2 as [|fuel2]; [lia|].
    cbn [upper_bound_loop]. destruct (Nat.eqb_spec count 0) as [|_]; [done|].
    assert (count / 2 < count)%nat as Hstep by (apply Nat.div_lt; lia).
    pose proof (Nat.div_mod_eq count 2) as Hdm.
    pose proof (Nat.mod_upper_bound count 2) as Hmod.
    destruct (lookup_lt_is_Some_2 vec (first + count / 2)%nat) as [mid Hmid]; [lia|].
    rewrite Hmid.
    assert (forall c, (c <= count / 2)%nat ->
              forall fuel, (Nat.log2 count < S fuel)%nat ->
              (c = 0 \/ Nat.log2 c < fuel)%nat) as Hnext.
    { intros c Hc fuel Hf. destruct c as [|c]; [by left|right].
      pose proof (log2_halved count (S c)). lia. }
    destruct (comp val mid).
    + apply IH; [lia|apply Hnext; lia..].
    + apply IH; [lia|apply Hnext; lia..].
Qed.
End SearchFacts.

Section SearchContracts.
Context {A : Type}.
Implicit Types (vec : list A) (comp : Z -> A -> bool).

(** X1.  The position [registerHandler] hands to [vec.insert] lies within
    the list, whatever the list holds and whatever the comparison answers:
    the insertion is always in range, the list grows by one and the new
    entry sits at that position. *)
Theorem insertion_index_in_range comp val vec (x : A) :
  (upper_bound comp val vec <= length vec)%nat /\
  length (vec_insert (upper_bound comp val vec) x vec) = S (length vec) /\
  vec_insert (upper_bound comp val vec) x vec !! upper_bound comp val vec = Some x.
Proof.
  pose proof (upper_bound_range comp val vec) as Hr.
  split; [done|]. unfold vec_insert. split.
  - rewrite length_app, length_take. simpl. rewrite length_drop. lia.
  - rewrite lookup_app_r; rewrite length_take; [|lia].
    replace (upper_bound comp val vec - upper_bound comp val vec `min` length vec)%nat
      with 0%nat by lia. done.
Qed.

(** X2.  On a list in descending key order the halving search returns what
    a scan from the front would: the number of entries whose key is at
    least the new one. *)
Theorem search_is_linear_scan (key : A -> Z) vec (p : Z) :
  descending key vec ->
  upper_bound (key_gt key) p vec
  = length (List.filter (fun x => p <=? key x) vec).
Proof.
  intros Hs. destruct (insert_point key vec p Hs) as [Hlo Hhi].
  pose proof (upper_bound_range (key_gt key) p vec) as Hr.
  set (r := upper_bound (key_gt key) p vec) in *.
  rewrite <- (take_drop r vec) at 1. rewrite List.filter_app, length_app.
  assert (List.filter (fun x => p <=? key x) (take r vec) = take r vec) as ->.
  { apply filter_all. eapply Forall_impl; [exact Hlo|].
    intros x Hx. simpl in Hx. apply Z.leb_le. lia. }
  assert (List.filter (fun x => p <=? key x) (drop r vec) = []) as ->.
  { apply filter_none. eapply Forall_impl; [exact Hhi|].
    intros x Hx. simpl in Hx. apply Z.leb_gt. lia. }
  rewrite length_take. simpl. lia.
Qed.

(** X3.  The search is logarithmic: on a list of [n] entries the loop has
    finished after at most [log2 n + 1] rounds, each with one comparison.
    Run with any such budget of rounds it returns the position that
    [upper_bound] returns. *)
Theorem search_is_logarithmic comp val vec (rounds : nat) :
  (Nat.log2 (length vec) < rounds)%nat ->
  upper_bound_loop comp val vec rounds 0 (length vec) = upper_bound comp val vec.
Proof.
  intros Hr. unfold upper_bound. apply upper_bound_loop_fuel; [lia|by right|].
  destruct (length vec) as [|n] eqn:Hn; [by left|right].
  apply Nat.log2_lt_lin. lia.
Qed.
End SearchContracts.

(** ** The life of a registration *)

Section LifecycleFacts.
Context {EventEnum : Type} `{Countable EventEnum} {Callable : Type}.

Abbreviation Handler := (HandlerBase Callable).
Abbreviation Dispatcher := (EventDispatcher EventEnum Callable).
Implicit Types (d : Dispatcher) (c event : EventEnum) (h : Handler).
Implicit Types (ops : list (Op EventEnum Callable)).

Lemma run_app ops1 ops2 d :
  run (ops1 ++ ops2) d
  = ((run ops1 d).1 ++ (run ops2 (run ops1 d).2).1, (run ops2 (run ops1 d).2).2).
Proof.
  revert d. induction ops1 as [|op ops1 IH]; intros d.
  - simpl. by destruct (run ops2 d).
  - cbn [app run]. cbv zeta. cbn [fst snd]. by rewrite IH.
Qed.

Lemma registrations_app ops1 ops2 :
  registrations (ops1 ++ ops2) = (registrations ops1 + registrations ops2)%nat.
Proof. unfold registrations. by rewrite List.filter_app, length_app. Qed.

Lemma lookup_register args event callable prio d c :
  handlers_ (registerHandler args event callable prio d).2 !! c
  = if decide (c = event)
    then Some (handlers_of (registerHandler args event callable prio d).2 event)
    else handlers_ d !! c.
Proof.
  unfold handlers_of, registerHandler. simpl.
  destruct (decide (c = event)) as [->|Hne].
  - by rewrite lookup_insert_eq.
  - by rewrite lookup_insert_ne.
Qed.

Lemma lookup_unregister event (i : HandlerId) d c :
  handlers_ (unregisterHandler event i d) !! c
  = if decide (c = event)
    then erase_remove_if (fun h => (id h =? i)%N) <$> handlers_ d !! c
    else handlers_ d !! c.
Proof.
  unfold unregisterHandler.
  destruct (decide (c = event)) as [->|Hne].
  - destruct (handlers_ d !! event) as [vec|] eqn:Hvec; simpl.
    + by rewrite lookup_insert_eq.
    + by rewrite Hvec.
  - destruct (handlers_ d !! event) as [vec|]; simpl; [|done].
    by rewrite lookup_insert_ne.
Qed.

Lemma next_id_unregister event (i : HandlerId) d :
  next_id_ (unregisterHandler event i d) = next_id_ d.
Proof. unfold unregisterHandler. by destruct (handlers_ d !! event). Qed.

Lemma dispatcher_eq d1 d2 :
  handlers_ d1 = handlers_ d2 -> next_id_ d1 = next_id_ d2 -> d1 = d2.
Proof. destruct d1, d2. simpl. by intros -> ->. Qed.

Lemma elem_of_vec_insert_inv {A} (i : nat) (x y : A) (vec : list A) :
  y ∈ vec_insert i x vec <-> y = x \/ y ∈ vec.
Proof.
  rewrite insert_Permutation. apply elem_of_cons.
Qed.

Lemma elem_of_erase {A} (pred : A -> bool) (y : A) (vec : list A) :
  y ∈ erase_remove_if pred vec <-> y ∈ vec /\ pred y = false.
Proof.
  unfold erase_remove_if. rewrite !list_elem_of_In, List.filter_In.
  by rewrite negb_true_iff.
Qed.

(** A handler found in a list after a run was there before the run or
    carries an id that the run has issued. *)
Lemma stored_old_or_new ops d (b : N) c h :
  unwrapped b d ->
  (b + N.of_nat (registrations ops) <= SIZE_MOD)%N ->
  h ∈ handlers_of (run ops d).2 c ->
  h ∈ handlers_of d c \/ (b <= id h)%N.
Proof.
  revert d b. induction ops as [|op ops IH]; intros d b Hd Hle Hin; [by left|].
  cbn [run] in Hin. cbv zeta in Hin. cbn [snd] in Hin.
  rewrite registrations_cons in Hle.
  pose proof (unwrapped_step op d b Hd) as Hstep.
  destruct op as [args event callable prio|event i|event tup].
  - destruct (IH _ (b + 1)%N (Hstep ltac:(lia)) ltac:(lia) Hin) as [Hold|Hnew]; [|right; lia].
    unfold step in Hold. cbv zeta in Hold. cbn [snd] in Hold.
    rewrite handlers_of_register in Hold.
    destruct (decide (c = event)) as [->|Hne]; [|by left].
    apply elem_of_vec_insert_inv in Hold as [->|Hold]; [right|by left].
    destruct Hd as (_ & Hnext & _). simpl. rewrite Hnext, N.mod_small; lia.
  - rewrite N.add_0_r in Hstep.
    destruct (IH _ b (Hstep ltac:(lia)) ltac:(lia) Hin) as [Hold|Hnew]; [|by right].
    left. unfold step in Hold. cbn [snd] in Hold.
    rewrite handlers_of_unregister in Hold.
    destruct (decide (c = event)) as [->|Hne]; [|done].
    by apply elem_of_erase in Hold as [Hold _].
  - rewrite N.add_0_r in Hstep.
    destruct (IH _ b (Hstep ltac:(lia)) ltac:(lia) Hin) as [Hold|Hnew]; [|by right].
    left. unfold step in Hold. cbv zeta in Hold. cbn [snd] in Hold.
    by rewrite dispatch_state in Hold.
Qed.

Lemma map_entry_step (op : Op EventEnum Callable) d c :
  is_Some (handlers_ (step op d).2 !! c)
  <-> is_Some (handlers_ d !! c)
      \/ match op with OpRegister _ e _ _ => e = c | _ => False end.
Proof.
  destruct op as [args event callable prio|event i|event tup];
    unfold step; cbv zeta; cbn [snd].
  - rewrite lookup_register. destruct (decide (c = event)) as [->|Hne].
    + split; [by right|by eauto].
    + split; [by left|]. intros [?|?]; [done|congruence].
  - rewrite lookup_unregister. destruct (decide (c = event)) as [->|Hne].
    + rewrite fmap_is_Some. tauto.
    + tauto.
  - rewrite dispatch_state. tauto.
Qed.
End LifecycleFacts.

Section Lifecycle.
Context {EventEnum : Type} `{Countable EventEnum} {Callable : Type}.

Abbreviation Handler := (HandlerBase Callable).
Abbreviation Dispatcher := (EventDispatcher EventEnum Callable).
Implicit Types (d : Dispatcher) (c event : EventEnum) (h : Handler).
Implicit Types (ops : list (Op EventEnum Callable)).

(** X4.  Ids are handed out in sequence: as long as fewer than [2^64]
    handlers have been registered, the [k]-th registration on a dispatcher
    is answered with [k], whatever its category and whatever was
    unregistered or dispatched before; an id given back by no call is
    never reused.  The counter then stands at the number of registrations
    plus one, reduced modulo [2^64]. *)
Theorem ids_are_sequential ops :
  (N.of_nat (registrations ops) < SIZE_MOD)%N ->
  issued_ids (run ops (fresh : Dispatcher)).1
  = map N.of_nat (seq 1 (registrations ops)) /\
  next_id_ (run ops (fresh : Dispatcher)).2
  = (N.of_nat (S (registrations ops)) mod SIZE_MOD)%N.
Proof.
  intros Hn. split.
  - rewrite run_issued_ids by done. change (next_id_ fresh) with 1%N.
    rewrite <- seq_shift, map_map. apply map_ext_in.
    intros k Hk%in_seq. rewrite N.mod_small by lia. lia.
  - destruct (unwrapped_run ops fresh 1 unwrapped_fresh) as (_ & Hnext & _); [lia|].
    rewrite Hnext. f_equal. lia.
Qed.

(** X5.  The map has an entry for exactly the categories that some
    registration has named: [unregisterHandler] never erases an entry, not
    even an emptied one, and [dispatch] never creates one. *)
Theorem entries_are_registered_categories ops c :
  is_Some (handlers_ (run ops (fresh : Dispatcher)).2 !! c)
  <-> Exists (fun op => match op with OpRegister _ e _ _ => e = c | _ => False end) ops.
Proof.
  assert (forall d,
            is_Some (handlers_ (run ops d).2 !! c)
            <-> is_Some (handlers_ d !! c)
                \/ Exists (fun op => match op with
                                     | OpRegister _ e _ _ => e = c
                                     | _ => False
                                     end) ops) as Hgen.
  { induction ops as [|op ops IH]; intros d.
    - simpl. rewrite Exists_nil. tauto.
    - cbn [run]. cbv zeta. cbn [snd].
      rewrite IH, map_entry_step, Exists_cons. tauto. }
  rewrite Hgen. unfold fresh. simpl. rewrite lookup_empty.
  split; [intros [[? ?]|?]; done|by right].
Qed.

(** X6.  An unregistered handler stays away.  Once [unregisterHandler] has
    been called for a category and an id not above the ids issued so far,
    no later dispatch on that category invokes a handler with that id,
    whatever is registered, unregistered or dispatched afterwards, as long
    as fewer than [2^64] handlers are registered in all. *)
Theorem unregistered_stays_gone ops1 ops2 c (i : HandlerId) (tup : Tuple) :
  (N.of_nat (registrations (ops1 ++ ops2)) < SIZE_MOD)%N ->
  (i <= N.of_nat (registrations ops1))%N ->
  Forall (fun inv => id (callee inv) ≠ i)
    (dispatch c tup (run (ops1 ++ OpUnregister c i :: ops2) (fresh : Dispatcher)).2).2.
Proof.
  intros Hn Hi. rewrite registrations_app in Hn.
  rewrite dispatch_calls. apply Forall_forall.
  intros inv (h & -> & Hh)%list_elem_of_fmap. simpl.
  rewrite run_app in Hh. cbn [snd run] in Hh. cbv zeta in Hh. cbn [snd] in Hh.
  pose proof (unwrapped_run ops1 fresh 1 unwrapped_fresh ltac:(lia)) as Hd1.
  pose proof (unwrapped_step (OpUnregister c i) _ _ Hd1) as Hd2.
  rewrite N.add_0_r in Hd2. specialize (Hd2 ltac:(lia)).
  destruct (stored_old_or_new ops2 _ _ c h Hd2 ltac:(lia) Hh) as [Hold|Hnew]; [|lia].
  unfold step in Hold. cbn [snd] in Hold.
  rewrite handlers_of_unregister, decide_True in Hold by done.
  apply elem_of_erase in Hold as [_ Hid]. by apply N.eqb_neq.
Qed.

(** X7.  A registered handler stays.  A handler found in the list of its
    category is still there, and is invoked by a dispatch on the
    category, after any operations among which none unregisters its id on
    that category. *)
Theorem registered_stays_until_unregistered ops d c h (tup : Tuple) :
  h ∈ handlers_of d c ->
  Forall (fun op => match op with
                    | OpUnregister e i => ~ (e = c /\ i = id h)
                    | _ => True
                    end) ops ->
  h ∈ handlers_of (run ops d).2 c /\
  call h tup ∈ (dispatch c tup (run ops d).2).2.
Proof.
  intros Hin Hops.
  assert (h ∈ handlers_of (run ops d).2 c) as Hstay.
  { revert d Hin. induction Hops as [|op ops Hop _ IH]; intros d Hin; [done|].
    cbn [run]. cbv zeta. cbn [snd]. apply IH.
    destruct op as [args event callable prio|event i|event tup'];
      unfold step; cbv zeta; cbn [snd].
    - rewrite handlers_of_register. destruct (decide (c = event)) as [->|]; [|done].
      apply elem_of_vec_insert_inv. by right.
    - rewrite handlers_of_unregister. destruct (decide (c = event)) as [->|]; [|done].
      apply elem_of_erase. split; [done|]. apply N.eqb_neq. intros Heq. by apply Hop.
    - by rewrite dispatch_state. }
  split; [done|]. by apply dispatch_calls_elem.
Qed.

(** X8.  Registering a handler and unregistering the id returned is a
    round trip for every handler list, and so for every dispatch, provided
    no handler of the category already carries that id (true while the
    counter has not wrapped).  What remains of the two calls is the
    advanced counter and an entry for the category, empty if there was
    none. *)
Theorem register_unregister_round_trip d args event (callable : Callable) (prio : Z) :
  Forall (fun h => id h ≠ next_id_ d) (handlers_of d event) ->
  let r := registerHandler args event callable prio d in
  let d' := unregisterHandler event r.1 r.2 in
  (forall c, handlers_of d' c = handlers_of d c) /\
  (forall c tup, (dispatch c tup d').2 = (dispatch c tup d).2) /\
  handlers_ d' = <[event := handlers_of d event]> (handlers_ d) /\
  next_id_ d' = ((next_id_ d + 1) mod SIZE_MOD)%N.
Proof.
  intros Hfree r d'.
  assert (erase_remove_if (fun h : Handler => (id h =? next_id_ d)%N)
            (handlers_of r.2 event) = handlers_of d event) as Hback.
  { subst r. rewrite handlers_of_register, decide_True by done.
    unfold vec_insert, erase_remove_if. rewrite List.filter_app. simpl.
    rewrite N.eqb_refl. simpl. rewrite <- List.filter_app, take_drop.
    apply erase_remove_if_id. eapply Forall_impl; [exact Hfree|].
    intros h Hh. simpl in Hh. by apply N.eqb_neq. }
  assert (forall c, handlers_of d' c = handlers_of d c) as Hlists.
  { intros c. subst d'. rewrite handlers_of_unregister.
    destruct (decide (c = event)) as [->|Hne]; [exact Hback|].
    subst r. by rewrite handlers_of_register, decide_False. }
  split; [done|]. split; [|split].
  - intros c tup. by rewrite !dispatch_calls, Hlists.
  - apply map_eq. intros c. subst d'. rewrite lookup_unregister.
    destruct (decide (c = event)) as [->|Hne].
    + rewrite lookup_insert_eq. unfold r at 2. rewrite lookup_register, decide_True by done.
      simpl. f_equal. exact Hback.
    + rewrite lookup_insert_ne by done. subst r.
      by rewrite lookup_register, decide_False.
  - subst d'. by rewrite next_id_unregister.
Qed.

(** X9.  Unregistrations commute: two [unregisterHandler] calls leave the
    same dispatcher in either order, on the same category or on two. *)
Theorem unregister_commutes d (e1 e2 : EventEnum) (i1 i2 : HandlerId) :
  unregisterHandler e1 i1 (unregisterHandler e2 i2 d)
  = unregisterHandler e2 i2 (unregisterHandler e1 i1 d).
Proof.
  apply dispatcher_eq; [|by rewrite !next_id_unregister].
  apply map_eq. intros c. rewrite !lookup_unregister.
  destruct (decide (c = e1)) as [He1|Hne1], (decide (c = e2)) as [He2|Hne2]; try done.
  rewrite <- !option_fmap_compose. apply option_fmap_ext. intros vec. simpl.
  unfold erase_remove_if. induction vec as [|h vec IH]; [done|]. simpl.
  destruct (id h =? i1)%N eqn:H1, (id h =? i2)%N eqn:H2; simpl;
    rewrite ?H1, ?H2; simpl; congruence.
Qed.

(** X10.  No registration is invoked twice in one pass: while fewer than
    [2^64] handlers have been registered, the handlers one dispatch
    invokes carry pairwise distinct ids. *)
Theorem dispatch_invokes_each_once ops c (tup : Tuple) :
  (N.of_nat (registrations ops) < SIZE_MOD)%N ->
  NoDup (map (fun inv => id (callee inv))
           (dispatch c tup (run ops (fresh : Dispatcher)).2).2).
Proof.
  intros Hn. rewrite <- (map_map callee id), dispatch_callees.
  by apply stored_ids_distinct.
Qed.
End Lifecycle.

(** ** Registrations at the extremes *)

Section Extremes.
Context {EventEnum : Type} `{Countable EventEnum} {Callable : Type}.

Abbreviation Handler := (HandlerBase Callable).
Abbreviation Dispatcher := (EventDispatcher EventEnum Callable).
Implicit Types (d : Dispatcher) (c event : EventEnum) (h : Handler).

Lemma upper_bound_all_true {A} (comp : Z -> A -> bool) (val : Z) (vec : list A) :
  Forall (fun x => comp val x = true) vec -> upper_bound comp val vec = 0%nat.
Proof.
  intros Hall.
  destruct (upper_bound_spec comp val vec) as (Hr & Hlo & _).
  { intros i j x y _ _ Hy _. rewrite Forall_forall in Hall.
    apply Hall. by eapply list_elem_of_lookup_2. }
  destruct (upper_bound comp val vec) as [|r]; [done|].
  destruct vec as [|x vec]; [simpl in Hr; lia|].
  simpl in Hlo. apply Forall_cons in Hlo as [Hx _].
  apply Forall_cons in Hall as [Hx' _]. congruence.
Qed.

Lemma upper_bound_all_false {A} (comp : Z -> A -> bool) (val : Z) (vec : list A) :
  Forall (fun x => comp val x = false) vec -> upper_bound comp val vec = length vec.
Proof.
  intros Hall.
  destruct (upper_bound_spec comp val vec) as (Hr & _ & Hhi).
  { intros i j x y _ Hx _ Hc. rewrite Forall_forall in Hall.
    rewrite (Hall x) in Hc; [done|]. by eapply list_elem_of_lookup_2. }
  destruct (decide (upper_bound comp val vec = length vec)) as [|Hne]; [done|].
  destruct (lookup_lt_is_Some_2 vec (upper_bound comp val vec)) as [x Hx]; [lia|].
  rewrite Forall_lookup in Hhi. rewrite Forall_forall in Hall.
  specialize (Hhi 0%nat x). rewrite lookup_drop, Nat.add_0_r in Hhi.
  specialize (Hhi Hx). rewrite (Hall x) in Hhi; [done|].
  by eapply list_elem_of_lookup_2.
Qed.

(** X14.  In any dispatcher state, a handler registered with a priority
    above that of every handler of its category goes to the front of the
    list and is dispatched first; one registered with a priority that
    exceeds none of them goes to the back and is dispatched last. *)
Theorem extreme_priority_position d args event (callable : Callable) (prio : Z) :
  let r := registerHandler args event callable prio d in
  let h := mkHandler r.1 prio args callable in
  (Forall (fun h' => priority h' < prio) (handlers_of d event) ->
   handlers_of r.2 event = h :: handlers_of d event) /\
  (Forall (fun h' => prio <= priority h') (handlers_of d event) ->
   handlers_of r.2 event = handlers_of d event ++ [h]).
Proof.
  intros r h. subst r h. rewrite handlers_of_register, decide_True by done.
  cbn [fst registerHandler]. split; intros Hall.
  - rewrite upper_bound_all_true; [done|].
    eapply Forall_impl; [exact Hall|]. intros h' Hh'. simpl in Hh'.
    unfold prio_gt. apply Z.gtb_gt. lia.
  - rewrite upper_bound_all_false.
    + unfold vec_insert. by rewrite firstn_all, drop_all.
    + eapply Forall_impl; [exact Hall|]. intros h' Hh'. simpl in Hh'.
      unfold prio_gt. rewrite Z.gtb_ltb. apply Z.ltb_ge. lia.
Qed.
End Extremes.

(** ** Handler bodies and exceptions *)

Section BodyFacts.
Context {EventEnum : Type} `{Countable EventEnum} {World : Type}.

Abbreviation Handler := (HandlerBase (Body World)).
Abbreviation Dispatcher := (EventDispatcher EventEnum (Body World)).
Implicit Types (d : Dispatcher) (c event : EventEnum) (h : Handler) (w : World).

Lemma tuple_unpacked (tup : Tuple) :
  omap (fun i => tup !! i) (seq 0 (length tup)) = tup.
Proof.
  induction tup as [|v tup IH]; [done|].
  cbn [length seq omap]. simpl. f_equal.
  rewrite <- seq_shift. rewrite <- IH at 2.
  clear IH. induction (seq 0 (length tup)) as [|k l IHl]; [done|].
  simpl. by rewrite IHl.
Qed.

(** With arguments of the handler's types, the stored function is applied
    to the caller's tuple as it is. *)
Lemma enter_call h (tup : Tuple) w :
  Args h = types_of tup -> enter (call h tup) w = func h tup w.
Proof.
  intros Hty. unfold enter, call, call_impl, index_sequence_for. simpl.
  rewrite Hty. unfold types_of. rewrite length_map. by rewrite tuple_unpacked.
Qed.

Lemma perform_app (calls1 calls2 : list (Invocation (Body World))) w w1 :
  perform calls1 w = (calls1, Returns w1) ->
  perform (calls1 ++ calls2) w = (calls1 ++ (perform calls2 w1).1, (perform calls2 w1).2).
Proof.
  revert w. induction calls1 as [|inv calls1 IH]; intros w Hall.
  - simpl in Hall. injection Hall as ->. simpl. by destruct (perform calls2 w1).
  - simpl in Hall |- *. destruct (enter inv w) as [w'|w'] eqn:Hinv.
    + destruct (perform calls1 w') as [done1 res1] eqn:Hrest. simpl in Hall.
      injection Hall as -> ->. rewrite (IH w') by done. done.
    + congruence.
Qed.
End BodyFacts.

Section BodyContracts.
Context {EventEnum : Type} `{Countable EventEnum} {World : Type}.

Abbreviation Handler := (HandlerBase (Body World)).
Abbreviation Dispatcher := (EventDispatcher EventEnum (Body World)).
Implicit Types (d : Dispatcher) (c event : EventEnum) (h : Handler) (w : World).

(** X12.  When the arguments have the types every handler of the category
    was registered with and every handler returns, [dispatch] runs all of
    them, in list order, each on the caller's arguments as they were
    passed, and returns: the world afterwards is the one the handlers
    leave when run one after the other in that order. *)
Theorem dispatch_runs_all_in_order d event (tup : Tuple) w :
  Forall (fun h => Args h = types_of tup) (handlers_of d event) ->
  Forall (fun h => forall w', exists w'', func h tup w' = Returns w'')
    (handlers_of d event) ->
  dispatch_run event tup d w
  = ((dispatch event tup d).2,
     Returns (foldl (fun w' h => match func h tup w' with
                                 | Returns w'' => w''
                                 | Throws w'' => w''
                                 end) w (handlers_of d event))).
Proof.
  unfold dispatch_run. rewrite dispatch_calls.
  intros Hty Hret. revert w.
  induction (handlers_of d event) as [|h vec IH]; intros w; [done|].
  apply Forall_cons in Hty as [Hh Hty]. apply Forall_cons in Hret as [Hr Hret].
  cbn [map perform foldl]. rewrite (enter_call h tup w Hh).
  destruct (Hr w) as [w' ->]. by rewrite (IH Hty Hret w').
Qed.

(** X13.  [dispatch] is fail-fast.  When the handlers ahead of [h] in the
    list have returned and [h] throws, the exception leaves [dispatch]:
    [h] is the last handler entered and none of the handlers behind it,
    those of lower priority or registered later, is invoked. *)
Theorem dispatch_is_fail_fast d event (tup : Tuple) w w1 w2
    (ahead behind : list Handler) h :
  handlers_of d event = ahead ++ h :: behind ->
  Forall (fun h' => Args h' = types_of tup) (ahead ++ [h]) ->
  perform (map (fun h' => call h' tup) ahead) w
  = (map (fun h' => call h' tup) ahead, Returns w1) ->
  func h tup w1 = Throws w2 ->
  dispatch_run event tup d w
  = (map (fun h' => call h' tup) (ahead ++ [h]), Throws w2).
Proof.
  intros Hvec Hty Hahead Hthrow. unfold dispatch_run.
  rewrite dispatch_calls, Hvec, map_app.
  rewrite (perform_app _ _ w w1 Hahead). cbn [map perform].
  apply Forall_app in Hty as [_ Hh]. apply Forall_cons in Hh as [Hh _].
  rewrite (enter_call h tup w1 Hh), Hthrow. simpl. by rewrite map_app.
Qed.
End BodyContracts.

(** ** The mutex and the calls in progress *)

Section LockAccounting.
Context {EventEnum : Type} `{Countable EventEnum} {Callable : Type}.

Abbreviation State := (Shared EventEnum Callable).
Implicit Types (s : State).

(** X11.  The mutex accounts for the calls in progress and nothing else:
    it is owned exclusively exactly when a registration or unregistration
    is in progress, its shared owners are the dispatches in progress, and
    when no call is in progress it is unlocked: no call returns with the
    lock still held. *)
Theorem mutex_accounts_for_calls s :
  shared_reachable s ->
  (exclusive_owner (mutex_ s) = true
   <-> Exists (fun op => lock_taken op = UniqueLock) (in_progress s)) /\
  shared_owners (mutex_ s)
  = length (List.filter (fun op => match lock_taken op with
                                   | SharedLock => true
                                   | UniqueLock => false
                                   end) (in_progress s)) /\
  (in_progress s = [] -> mutex_ s = unlocked).
Proof.
  intros Hr. apply lock_consistent_reachable in Hr. unfold lock_consistent in Hr.
  destruct (mutex_ s) as [ex n] eqn:Hm. simpl in *. destruct ex.
  - destruct Hr as (-> & op & -> & Hop). split; [|split].
    + split; [intros _; by apply Exists_cons_hd|done].
    + simpl. by rewrite Hop.
    + done.
  - destruct Hr as [-> Hall]. split; [|split].
    + split; [done|]. intros Hex. apply Exists_exists in Hex as (op & Hin & Hop).
      rewrite Forall_forall in Hall. specialize (Hall op Hin). congruence.
    + f_equal. symmetry. apply filter_all.
      eapply Forall_impl; [exact Hall|]. intros op Hop. simpl in Hop. by rewrite Hop.
    + intros ->. done.
Qed.
End LockAccounting.

(** ** The scenarios, evaluated *)

Example unit_tests_first_dispatch :
  map (fun inv => func (callee inv)) (dispatch EventB [VString "Hello World"] unit_tests).2
  = ["Handler 2"; "Handler 1"; "Handler 3"].
Proof. reflexivity. Qed.

Example unit_tests_second_dispatch :
  map (fun inv => func (callee inv))
      (dispatch EventB [VString "Second Call"] (unregisterHandler EventB 2%N unit_tests)).2
  = ["Handler 1"; "Handler 3"].
Proof. reflexivity. Qed.

Example mixed_run_ids : issued_ids (run mixed_run fresh).1 = [1; 2; 3]%N.
Proof. reflexivity. Qed.

Example benchmark_dispatch :
  map (fun inv => func (callee inv))
      (dispatch EventA [VInt 0] (register_all benchmark_registrations fresh).2).2
  = ["times two"; "minus three"; "plus one"].
Proof. reflexivity. Qed.

(** C1 on the registrations of [benchmark()]: the priorities 5, 10 and 7
    differ, so the handlers run in strictly descending priority. *)
Lemma dispatch_priority_order_witness :
  NoDup (map priority
           (issued_on EventA (register_all benchmark_registrations fresh).1
              benchmark_registrations)) /\
  StronglySorted (fun h1 h2 : HandlerBase string => priority h2 < priority h1)
    (map callee
       (dispatch EventA [VInt 0] (register_all benchmark_registrations fresh).2).2).
Proof.
  assert (NoDup (map priority
                   (issued_on EventA (register_all benchmark_registrations fresh).1
                      benchmark_registrations))) as Hnd.
  { apply (bool_decide_unpack _). vm_compute. exact I. }
  destruct (proj1 dispatch_priority_order benchmark_registrations EventA [VInt 0])
    as (_ & _ & _ & Hstrict & _).
  split; [exact Hnd|exact (Hstrict Hnd)].
Defined.

(** C3, the claim as stated fails: a handler registered for an [int] is
    invoked by a dispatch that supplies a [std::string], and the dispatch
    reports nothing.  With the cast of [Handler::call] taken into account,
    what is observed is not the mismatch condition but undefined
    behaviour. *)
Lemma mismatched_handler_is_invoked :
  types_of [VString "Hello World"] ≠ [TInt] /\
  dispatch EventA [VString "Hello World"]
    (registerHandler [TInt] EventA "plus one" 5 fresh).2
  = ((registerHandler [TInt] EventA "plus one" 5 fresh).2,
     [ {| callee := {| id := 1%N; priority := 5; Args := [TInt]; func := "plus one" |};
          passed := [VString "Hello World"] |} ]) /\
  dispatch_cast EventA [VString "Hello World"]
    (registerHandler [TInt] EventA silent 5 fresh).2 []
  = ([ {| callee := {| id := 1%N; priority := 5; Args := [TInt]; func := silent |};
          passed := [VString "Hello World"] |} ],
     UndefinedBehaviour).
Proof. split; [discriminate|]. split; reflexivity. Qed.

(** C3 on [mixed_signatures] and a dispatch that supplies an [int]: the
    handler for an [int] is first in the list and returns; Handler 2, for
    a [std::string], is next and is entered all the same.  Nothing is known
    of Handler 1 and Handler 3, behind it. *)
Lemma dispatch_casts_unchecked_witness :
  handlers_of mixed_signatures EventB
  = [ {| id := 4%N; priority := 20; Args := [TInt]; func := silent |} ]
    ++ {| id := 2%N; priority := 10; Args := [TString]; func := printer "Handler 2" |}
    :: [ {| id := 1%N; priority := 5; Args := [TString]; func := printer "Handler 1" |};
         {| id := 3%N; priority := 1; Args := [TString]; func := printer "Handler 3" |} ] /\
  Args {| id := 2%N; priority := 10; Args := [TString]; func := printer "Handler 2" |}
  ≠ types_of [VInt 42] /\
  dispatch_cast EventB [VInt 42] mixed_signatures []
  = ([ {| callee := {| id := 4%N; priority := 20; Args := [TInt]; func := silent |};
          passed := [VInt 42] |};
       {| callee := {| id := 2%N; priority := 10; Args := [TString];
                       func := printer "Handler 2" |};
          passed := [VInt 42] |} ],
     UndefinedBehaviour).
Proof.
  assert (handlers_of mixed_signatures EventB
          = [ {| id := 4%N; priority := 20; Args := [TInt]; func := silent |} ]
            ++ {| id := 2%N; priority := 10; Args := [TString];
                  func := printer "Handler 2" |}
            :: [ {| id := 1%N; priority := 5; Args := [TString];
                    func := printer "Handler 1" |};
                 {| id := 3%N; priority := 1; Args := [TString];
                    func := printer "Handler 3" |} ]) as Hvec by reflexivity.
  assert (Args {| id := 2%N; priority := 10; Args := [TString];
                  func := printer "Handler 2" |}
          ≠ types_of [VInt 42]) as Hne by discriminate.
  destruct (@dispatch_casts_unchecked EventType _ _ (list string)) as [_ Hcast].
  split; [exact Hvec|]. split; [exact Hne|].
  exact (Hcast mixed_signatures EventB [VInt 42] [] [] _ _ _ Hvec eq_refl Hne).
Defined.

(** C4 on [mixed_run], which registers three handlers. *)
Lemma handler_ids_distinct_witness :
  (N.of_nat (registrations mixed_run) < SIZE_MOD)%N /\
  NoDup (issued_ids (run mixed_run fresh).1) /\
  0%N ∉ issued_ids (run mixed_run fresh).1.
Proof.
  split; [reflexivity|]. apply (handler_ids_distinct mixed_run). reflexivity.
Defined.

(** C5 on an id that was never issued: nothing changes, with or without a
    list for the category. *)
Lemma unregister_removes_idempotent_witness :
  handlers_ (fresh : EventDispatcher EventType string) !! EventA = None /\
  unregisterHandler EventA 7%N (fresh : EventDispatcher EventType string) = fresh /\
  Forall (fun h => id h ≠ 7%N) (handlers_of unit_tests EventB) /\
  unregisterHandler EventB 7%N unit_tests = unit_tests.
Proof.
  destruct (proj1 unregister_removes_idempotent unit_tests EventB 7%N)
    as (_ & _ & _ & Hmiss & _).
  destruct (proj1 unregister_removes_idempotent
              (fresh : EventDispatcher EventType string) EventA 7%N)
    as (_ & _ & Habsent & _).
  assert (Forall (fun h : HandlerBase string => id h ≠ 7%N) (handlers_of unit_tests EventB))
    as Hall by (repeat constructor; discriminate).
  split; [reflexivity|]. split; [apply Habsent; reflexivity|].
  split; [exact Hall|apply Hmiss; exact Hall].
Defined.

(** C6 on [unit_tests], where nothing is registered on [EventA]. *)
Lemma dispatch_no_listener_witness :
  handlers_of unit_tests EventA = [] /\
  dispatch EventA [VInt 42] unit_tests = (unit_tests, []).
Proof.
  split; [reflexivity|].
  apply (proj1 (dispatch_no_listener EventA [VInt 42]) unit_tests). reflexivity.
Defined.

(** C7 on two dispatches in a row. *)
Lemma dispatch_state_unchanged_witness :
  Forall (fun op : Op EventType string =>
            match op with OpDispatch _ _ => True | _ => False end)
    [OpDispatch EventB [VString "Hello World"]; OpDispatch EventA [VInt 42]] /\
  (run [OpDispatch EventB [VString "Hello World"]; OpDispatch EventA [VInt 42]]
       unit_tests).2 = unit_tests.
Proof.
  assert (Forall (fun op : Op EventType string =>
                    match op with OpDispatch _ _ => True | _ => False end)
            [OpDispatch EventB [VString "Hello World"]; OpDispatch EventA [VInt 42]])
    as Hall by (repeat constructor).
  destruct (dispatch_state_unchanged unit_tests EventB [VString "Hello World"])
    as (_ & _ & _ & Hrun).
  split; [exact Hall|exact (Hrun _ Hall)].
Defined.

(** C9 on [unit_tests]: unregistering on [EventA] leaves [EventB] alone. *)
Lemma other_category_untouched_witness :
  EventA ≠ EventB /\
  handlers_ (unregisterHandler EventA 2%N unit_tests) !! EventB
  = handlers_ unit_tests !! EventB.
Proof.
  assert (EventA ≠ EventB) as Hne by discriminate.
  destruct (other_category_untouched unit_tests EventA EventB Hne) as (_ & Hun & _).
  split; [exact Hne|exact (Hun 2%N)].
Defined.


(** C8 on an unregistration that has entered on the idle dispatcher, and
    on [multithreadedTest()] once its registration has returned and three
    of its threads are inside [dispatch]: the fourth is let in. *)
Lemma lock_discipline_witness :
  (shared_reachable
     {| mutex_ := {| exclusive_owner := true; shared_owners := 0 |};
        in_progress := [OpUnregister EventB 2%N];
        guarded := (fresh : EventDispatcher EventType string) |} /\
   lock_taken (OpUnregister EventB 2%N : Op EventType string) = UniqueLock /\
   in_progress
     {| mutex_ := {| exclusive_owner := true; shared_owners := 0 |};
        in_progress := [OpUnregister EventB 2%N];
        guarded := (fresh : EventDispatcher EventType string) |}
   = [OpUnregister EventB 2%N]) /\
  (shared_reachable multithreaded_test /\
   Forall (fun op => lock_taken op = SharedLock) (in_progress multithreaded_test) /\
   exists s',
     shared_step multithreaded_test s' /\
     in_progress s' = OpDispatch EventA [VInt 3] :: in_progress multithreaded_test /\
     guarded s' = guarded multithreaded_test).
Proof.
  assert (shared_reachable
            {| mutex_ := {| exclusive_owner := true; shared_owners := 0 |};
               in_progress := [OpUnregister EventB 2%N];
               guarded := (fresh : EventDispatcher EventType string) |}) as Hr.
  { apply rtc_once.
    apply (call_enters (OpUnregister EventB 2%N) shared_fresh). reflexivity. }
  assert (shared_reachable multithreaded_test) as Hr'.
  { unfold shared_reachable.
    eapply rtc_l; [apply (call_enters multithreaded_register); reflexivity|].
    eapply rtc_l; [apply (call_returns multithreaded_register _ [] []); reflexivity|].
    eapply rtc_l; [apply (call_enters (OpDispatch EventA [VInt 0])); reflexivity|].
    eapply rtc_l; [apply (call_enters (OpDispatch EventA [VInt 1])); reflexivity|].
    eapply rtc_l; [apply (call_enters (OpDispatch EventA [VInt 2])); reflexivity|].
    apply rtc_refl. }
  assert (Forall (fun op : Op EventType string => lock_taken op = SharedLock)
            (in_progress multithreaded_test)) as Hall.
  { repeat constructor. }
  destruct (@lock_discipline EventType _ _ string) as (_ & _ & _ & Hexcl & _ & Hadmit & _).
  split.
  - split; [exact Hr|]. split; [reflexivity|].
    apply (Hexcl _ (OpUnregister EventB 2%N) Hr); [|reflexivity].
    simpl. apply list_elem_of_here.
  - split; [exact Hr'|]. split; [exact Hall|].
    exact (Hadmit multithreaded_test EventA [VInt 3] Hr' Hall).
Defined.

(** ** The further properties on the scenarios *)

Example unit_tests_console :
  (dispatch_run EventB [VString "Hello World"] unit_tests_bodies []).2
  = Returns ["Handler 2: Hello World"; "Handler 1: Hello World"; "Handler 3: Hello World"].
Proof. reflexivity. Qed.

(** X2 on the list of [unit_tests] and priority 5: two entries are not
    below it. *)
Lemma search_is_linear_scan_witness :
  descending priority (handlers_of unit_tests EventB) /\
  upper_bound (key_gt priority) 5 (handlers_of unit_tests EventB) = 2%nat.
Proof.
  assert (descending priority (handlers_of unit_tests EventB)) as Hs.
  { repeat constructor; unfold desc; simpl; lia. }
  split; [exact Hs|].
  exact (search_is_linear_scan priority (handlers_of unit_tests EventB) 5 Hs).
Defined.

(** X3 on the same list of three entries: two rounds are enough. *)
Lemma search_is_logarithmic_witness :
  (Nat.log2 (length (handlers_of unit_tests EventB)) < 2)%nat /\
  upper_bound_loop prio_gt 5 (handlers_of unit_tests EventB) 2 0
    (length (handlers_of unit_tests EventB))
  = upper_bound prio_gt 5 (handlers_of unit_tests EventB).
Proof.
  assert (Nat.log2 (length (handlers_of unit_tests EventB)) < 2)%nat as Hr
    by (vm_compute; lia).
  split; [exact Hr|].
  exact (search_is_logarithmic prio_gt 5 (handlers_of unit_tests EventB) 2 Hr).
Defined.

(** X4 on [mixed_run]. *)
Lemma ids_are_sequential_witness :
  (N.of_nat (registrations mixed_run) < SIZE_MOD)%N /\
  issued_ids (run mixed_run fresh).1 = map N.of_nat (seq 1 (registrations mixed_run)).
Proof.
  assert (N.of_nat (registrations mixed_run) < SIZE_MOD)%N as Hn by reflexivity.
  destruct (ids_are_sequential mixed_run Hn) as [Hids _].
  split; [exact Hn|exact Hids].
Defined.

(** X6 on [unit_tests]: handler 2 is unregistered, another handler is
    registered, and a dispatch does not reach id 2. *)
Lemma unregistered_stays_gone_witness :
  (N.of_nat (registrations
               ([ OpRegister [TString] EventB "Handler 1" 5;
                  OpRegister [TString] EventB "Handler 2" 10 ]
                ++ [ OpRegister [TString] EventB "Handler 3" 1 ])) < SIZE_MOD)%N /\
  (2 <= N.of_nat (registrations
                    [ OpRegister [TString] EventB "Handler 1" 5;
                      OpRegister [TString] EventB "Handler 2" 10 ]))%N /\
  Forall (fun inv : Invocation string => id (callee inv) ≠ 2%N)
    (dispatch EventB [VString "Second Call"]
       (run ([ OpRegister [TString] EventB "Handler 1" 5;
               OpRegister [TString] EventB "Handler 2" 10 ]
             ++ OpUnregister EventB 2%N
                :: [ OpRegister [TString] EventB "Handler 3" 1 ])
            fresh).2).2.
Proof.
  assert (N.of_nat (registrations
               ([ OpRegister [TString] EventB "Handler 1" 5;
                  OpRegister [TString] EventB "Handler 2" 10 ]
                ++ [ OpRegister [TString] EventB "Handler 3" 1 ]
                : list (Op EventType string))) < SIZE_MOD)%N as Hn by reflexivity.
  assert (2 <= N.of_nat (registrations
                    ([ OpRegister [TString] EventB "Handler 1" 5;
                       OpRegister [TString] EventB "Handler 2" 10 ]
                     : list (Op EventType string))))%N as Hi by (vm_compute; discriminate).
  split; [exact Hn|]. split; [exact Hi|].
  exact (unregistered_stays_gone _ _ EventB 2%N [VString "Second Call"] Hn Hi).
Defined.

(** X7 on [unit_tests]: handler 1 outlives the unregistration of handler 2
    and a further registration. *)
Lemma registered_stays_until_unregistered_witness :
  {| id := 1%N; priority := 5; Args := [TString]; func := "Handler 1" |}
    ∈ handlers_of unit_tests EventB /\
  {| id := 1%N; priority := 5; Args := [TString]; func := "Handler 1" |}
    ∈ handlers_of
        (run [ OpUnregister EventB 2%N; OpRegister [TString] EventB "Handler 4" 5 ]
             unit_tests).2 EventB.
Proof.
  assert ({| id := 1%N; priority := 5; Args := [TString]; func := "Handler 1" |}
            ∈ handlers_of unit_tests EventB) as Hin.
  { apply (list_elem_of_lookup_2 _ 1%nat). reflexivity. }
  assert (Forall (fun op : Op EventType string =>
                    match op with
                    | OpUnregister e i => ~ (e = EventB /\ i = 1%N)
                    | _ => True
                    end)
            [ OpUnregister EventB 2%N; OpRegister [TString] EventB "Handler 4" 5 ])
    as Hops.
  { repeat constructor. intros [_ Hi]. discriminate. }
  destruct (registered_stays_until_unregistered _ unit_tests EventB _
              [VString "Second Call"] Hin Hops) as [Hstay _].
  split; [exact Hin|exact Hstay].
Defined.

(** X8 on [unit_tests]: a fourth handler comes and goes. *)
Lemma register_unregister_round_trip_witness :
  Forall (fun h : HandlerBase string => id h ≠ next_id_ unit_tests)
    (handlers_of unit_tests EventB) /\
  handlers_of
    (unregisterHandler EventB (registerHandler [TString] EventB "Handler 4" 7 unit_tests).1
       (registerHandler [TString] EventB "Handler 4" 7 unit_tests).2) EventB
  = handlers_of unit_tests EventB.
Proof.
  assert (Forall (fun h : HandlerBase string => id h ≠ next_id_ unit_tests)
            (handlers_of unit_tests EventB)) as Hfree.
  { repeat constructor; discriminate. }
  destruct (register_unregister_round_trip unit_tests [TString] EventB "Handler 4" 7 Hfree)
    as (Hlists & _).
  split; [exact Hfree|exact (Hlists EventB)].
Defined.

(** X10 on [mixed_run]. *)
Lemma dispatch_invokes_each_once_witness :
  (N.of_nat (registrations mixed_run) < SIZE_MOD)%N /\
  NoDup (map (fun inv : Invocation string => id (callee inv))
           (dispatch EventA [VInt 42] (run mixed_run fresh).2).2).
Proof.
  assert (N.of_nat (registrations mixed_run) < SIZE_MOD)%N as Hn by reflexivity.
  split; [exact Hn|exact (dispatch_invokes_each_once mixed_run EventA [VInt 42] Hn)].
Defined.

(** X11 on a dispatch that has entered on the idle dispatcher. *)
Lemma mutex_accounts_for_calls_witness :
  shared_reachable
    {| mutex_ := {| exclusive_owner := false; shared_owners := 1 |};
       in_progress := [OpDispatch EventA [VInt 42]];
       guarded := (fresh : EventDispatcher EventType string) |} /\
  shared_owners
    (mutex_ {| mutex_ := {| exclusive_owner := false; shared_owners := 1 |};
               in_progress := [OpDispatch EventA [VInt 42]];
               guarded := (fresh : EventDispatcher EventType string) |})
  = 1%nat.
Proof.
  assert (shared_reachable
            {| mutex_ := {| exclusive_owner := false; shared_owners := 1 |};
               in_progress := [OpDispatch EventA [VInt 42]];
               guarded := (fresh : EventDispatcher EventType string) |}) as Hr.
  { apply rtc_once.
    apply (call_enters (OpDispatch EventA [VInt 42]) shared_fresh). reflexivity. }
  destruct (mutex_accounts_for_calls _ Hr) as (_ & Hshared & _).
  split; [exact Hr|exact Hshared].
Defined.

(** X12 on [unitTests()]: the first dispatch prints the three lines in
    priority order. *)
Lemma dispatch_runs_all_in_order_witness :
  Forall (fun h : HandlerBase (Body (list string)) =>
            Args h = types_of [VString "Hello World"])
    (handlers_of unit_tests_bodies EventB) /\
  Forall (fun h : HandlerBase (Body (list string)) =>
            forall w', exists w'', func h [VString "Hello World"] w' = Returns w'')
    (handlers_of unit_tests_bodies EventB) /\
  (dispatch_run EventB [VString "Hello World"] unit_tests_bodies []).2
  = Returns ["Handler 2: Hello World"; "Handler 1: Hello World"; "Handler 3: Hello World"].
Proof.
  assert (Forall (fun h : HandlerBase (Body (list string)) =>
                    Args h = types_of [VString "Hello World"])
            (handlers_of unit_tests_bodies EventB)) as Hty.
  { repeat constructor. }
  assert (Forall (fun h : HandlerBase (Body (list string)) =>
                    forall w', exists w'', func h [VString "Hello World"] w' = Returns w'')
            (handlers_of unit_tests_bodies EventB)) as Hret.
  { repeat constructor; intros w'; eexists; reflexivity. }
  split; [exact Hty|]. split; [exact Hret|].
  rewrite (dispatch_runs_all_in_order unit_tests_bodies EventB [VString "Hello World"]
             [] Hty Hret).
  reflexivity.
Defined.

(** X13 on [unit_tests_thrower]: "Handler 2" prints, the handler of
    priority 7 throws, "Handler 1" and "Handler 3" are not reached. *)
Lemma dispatch_is_fail_fast_witness :
  map (fun inv : Invocation (Body (list string)) => priority (callee inv))
    (dispatch_run EventB [VString "Hello World"] unit_tests_thrower []).1 = [10; 7] /\
  (dispatch_run EventB [VString "Hello World"] unit_tests_thrower []).2
  = Throws ["Handler 2: Hello World"].
Proof.
  pose proof (dispatch_is_fail_fast unit_tests_thrower EventB [VString "Hello World"]
                [] ["Handler 2: Hello World"] ["Handler 2: Hello World"]
                [ {| id := 2%N; priority := 10; Args := [TString];
                     func := printer "Handler 2" |} ]
                [ {| id := 1%N; priority := 5; Args := [TString];
                     func := printer "Handler 1" |};
                  {| id := 3%N; priority := 1; Args := [TString];
                     func := printer "Handler 3" |} ]
                {| id := 4%N; priority := 7; Args := [TString]; func := thrower |}
                eq_refl ltac:(repeat constructor) eq_refl eq_refl) as Hrun.
  rewrite Hrun. split; reflexivity.
Defined.

(** X14 on [unit_tests]: priority 11 goes to the front, priority 1 to the
    back, behind the handler that has priority 1 already. *)
Lemma extreme_priority_position_witness :
  Forall (fun h' : HandlerBase string => priority h' < 11) (handlers_of unit_tests EventB) /\
  map priority (handlers_of (registerHandler [TString] EventB "first" 11 unit_tests).2 EventB)
  = [11; 10; 5; 1] /\
  Forall (fun h' : HandlerBase string => 1 <= priority h') (handlers_of unit_tests EventB) /\
  map priority (handlers_of (registerHandler [TString] EventB "last" 1 unit_tests).2 EventB)
  = [10; 5; 1; 1].
Proof.
  assert (Forall (fun h' : HandlerBase string => priority h' < 11)
            (handlers_of unit_tests EventB)) as Hfront.
  { repeat constructor; simpl; lia. }
  assert (Forall (fun h' : HandlerBase string => 1 <= priority h')
            (handlers_of unit_tests EventB)) as Hback.
  { repeat constructor; simpl; lia. }
  destruct (extreme_priority_position unit_tests [TString] EventB "first" 11) as [H1 _].
  destruct (extreme_priority_position unit_tests [TString] EventB "last" 1) as [_ H2].
  split; [exact Hfront|]. split; [by rewrite (H1 Hfront)|].
  split; [exact Hback|by rewrite (H2 Hback)].
Defined.
